(** * Kaizen demo algorithms: a shallow embedding of
    [src/demo/python_algorithms.py] and the properties of its four
    routines ([merge_sort], [binary_search], [dijkstra_shortest_path],
    [fibonacci_dynamic]).

    Python values are modelled as follows: lists as [list], unbounded
    integers as [Z], dictionaries as [gmap], sets as [gset].  A call either
    returns a value or raises; loops and recursion are driven by a fuel
    counter that the top-level functions set from the size of their input,
    and every theorem that speaks of a returned value shows that the fuel
    suffices. *)

From stdpp Require Import gmap strings list sorting.

(** ** Outcomes of a call *)

Inductive exn := IndexError | KeyError | ValueError.

Inductive outcome (A : Type) : Type :=
  | Ok (a : A)
  | Raise (e : exn)
  | OutOfFuel.
Arguments Ok {A} a.
Arguments Raise {A} e.
Arguments OutOfFuel {A}.

#[global] Instance outcome_ret : MRet outcome := λ A a, Ok a.
#[global] Instance outcome_bind : MBind outcome := λ A B f m,
  match m with
  | Ok a => f a
  | Raise e => Raise e
  | OutOfFuel => OutOfFuel
  end.

(** [l[i]] for an index that is known to be non-negative. *)
Definition index {A} (l : list A) (i : nat) : outcome A :=
  match l !! i with
  | Some x => Ok x
  | None => Raise IndexError
  end.

(** [d[k]] on a dictionary. *)
Definition getitem `{Countable K} {V} (d : gmap K V) (k : K) : outcome V :=
  match d !! k with
  | Some v => Ok v
  | None => Raise KeyError
  end.

(** [l[i]] for an integer index: a negative index counts from the end. *)
Definition index_Z {A} (l : list A) (i : Z) : outcome A :=
  let n := Z.of_nat (length l) in
  if bool_decide (0 ≤ i < n)%Z then index l (Z.to_nat i)
  else if bool_decide (- n ≤ i < 0)%Z then index l (Z.to_nat (n + i))
  else Raise IndexError.

(** ** Merge sort *)

Module Sort.
Section merge_sort.
Context {A : Type}.
(** The comparison [x <= y] of the element type. *)
Variable le : A → A → bool.

(** The [while] loop of [merge] on the state [(i, j, result)], followed by
    the two [extend] calls. *)
Fixpoint merge_loop (fuel : nat) (left right : list A) (i j : nat)
    (result : list A) : outcome (list A) :=
  match fuel with
  | 0 => OutOfFuel
  | S fuel =>
      if bool_decide (i < length left) && bool_decide (j < length right)
      then
        x ← index left i;
        y ← index right j;
        if le x y
        then merge_loop fuel left right (S i) j (result ++ [x])
        else merge_loop fuel left right i (S j) (result ++ [y])
      else Ok ((result ++ drop i left) ++ drop j right)
  end.

Definition merge (left right : list A) : outcome (list A) :=
  merge_loop (S (length left + length right)) left right 0 0 [].

Fixpoint merge_sort_rec (fuel : nat) (arr : list A) : outcome (list A) :=
  match fuel with
  | 0 => OutOfFuel
  | S fuel =>
      if bool_decide (length arr ≤ 1) then Ok arr
      else
        let mid := length arr `div` 2 in
        left ← merge_sort_rec fuel (take mid arr);
        right ← merge_sort_rec fuel (drop mid arr);
        merge left right
  end.

Definition merge_sort (arr : list A) : outcome (list A) :=
  merge_sort_rec (S (length arr)) arr.

(** The order read off the comparison, and "compare equal". *)
Definition le_rel (x y : A) : Prop := le x y = true.
Definition same_key (x y : A) : bool := le x y && le y x.

#[global] Instance le_rel_dec x y : Decision (le_rel x y).
Proof. unfold le_rel. apply _. Defined.

End merge_sort.

(** Records ordered by their integer key alone, whatever they carry. *)
Definition le_key (x y : Z * string) : bool := (x.1 <=? y.1)%Z.

End Sort.

(** ** Binary search *)

Module BinSearch.
Section binary_search.
Context {A : Type}.
(** The comparisons [x == y] and [x < y] of the element type. *)
Variable eqb : A → A → bool.
Variable ltb : A → A → bool.

Fixpoint binary_search_loop (fuel : nat) (arr : list A) (target : A)
    (left right : Z) : outcome Z :=
  match fuel with
  | 0 => OutOfFuel
  | S fuel =>
      if bool_decide (left ≤ right)%Z then
        let mid := ((left + right) `div` 2)%Z in
        mid_value ← index_Z arr mid;
        if eqb mid_value target then Ok mid
        else if ltb mid_value target then
          if bool_decide (mid < Z.of_nat (length arr) - 1)%Z
          then binary_search_loop fuel arr target (mid + 1)%Z right
          else Ok (-1)%Z
        else
          if bool_decide (mid > 0)%Z
          then binary_search_loop fuel arr target left (mid - 1)%Z
          else Ok (-1)%Z
      else Ok (-1)%Z
  end.

Definition binary_search (arr : list A) (target : A) : outcome Z :=
  binary_search_loop (S (length arr)) arr target 0 (Z.of_nat (length arr) - 1).

(** The two-branch form the specification compares with: the same loop
    that always narrows to [left = mid + 1] or [right = mid - 1]. *)
Fixpoint simple_search_loop (fuel : nat) (arr : list A) (target : A)
    (left right : Z) : outcome Z :=
  match fuel with
  | 0 => OutOfFuel
  | S fuel =>
      if bool_decide (left ≤ right)%Z then
        let mid := ((left + right) `div` 2)%Z in
        mid_value ← index_Z arr mid;
        if eqb mid_value target then Ok mid
        else if ltb mid_value target
        then simple_search_loop fuel arr target (mid + 1)%Z right
        else simple_search_loop fuel arr target left (mid - 1)%Z
      else Ok (-1)%Z
  end.

Definition simple_search (arr : list A) (target : A) : outcome Z :=
  simple_search_loop (S (length arr)) arr target 0 (Z.of_nat (length arr) - 1).

(** Ascending order: no element is greater than a later one. *)
Definition ascending (arr : list A) : Prop :=
  ∀ i j x y, arr !! i = Some x → arr !! j = Some y → i ≤ j → ltb y x = false.

(** Strictly ascending order: every element is less than the later ones. *)
Definition strictly_ascending (arr : list A) : Prop :=
  ∀ i j x y, arr !! i = Some x → arr !! j = Some y → i < j → ltb x y = true.

(** What the comparisons of a totally ordered element type satisfy. *)
Record total_order : Prop := {
  eqb_eq : ∀ x y, eqb x y = true ↔ x = y;
  ltb_irrefl : ∀ x, ltb x x = false;
  ltb_trans : ∀ x y z, ltb x y = true → ltb y z = true → ltb x z = true;
  ltb_total : ∀ x y, ltb x y = true ∨ x = y ∨ ltb y x = true
}.

End binary_search.
End BinSearch.

(** ** Dijkstra's shortest paths *)

Module Dijkstra.

(** Distances: an integer or [float('inf')]. *)
Inductive dist := Fin (d : Z) | Inf.

#[global] Instance dist_eq_dec : EqDecision dist.
Proof. solve_decision. Defined.

(** [a < b] *)
Definition dist_lt (a b : dist) : bool :=
  match a, b with
  | Fin x, Fin y => bool_decide (x < y)%Z
  | Fin _, Inf => true
  | Inf, _ => false
  end.

(** [a + w] for an integer weight [w] *)
Definition dist_add (a : dist) (w : Z) : dist :=
  match a with
  | Fin x => Fin (x + w)
  | Inf => Inf
  end.

Section dijkstra.
Context `{Countable K}.
(** The order in which a set and the items of a dictionary are iterated
    is left to the implementation. *)
Variable set_iter : gset K → list K.
Variable dict_items : gmap K Z → list (K * Z).

(** [min(xs, key=key)]: the first element whose key is the smallest. *)
Fixpoint min_loop (key : K → outcome dist) (best : K) (best_key : dist)
    (xs : list K) : outcome K :=
  match xs with
  | [] => Ok best
  | x :: xs =>
      kx ← key x;
      if dist_lt kx best_key then min_loop key x kx xs
      else min_loop key best best_key xs
  end.

Definition min_by (key : K → outcome dist) (xs : list K) : outcome K :=
  match xs with
  | [] => Raise ValueError
  | x :: xs => kx ← key x; min_loop key x kx xs
  end.

(** The [for neighbor, weight in graph[current].items()] loop. *)
Fixpoint relax_loop (unvisited : gset K) (current : K)
    (items : list (K * Z)) (distances : gmap K dist)
    : outcome (gmap K dist) :=
  match items with
  | [] => Ok distances
  | (neighbor, weight) :: items =>
      if bool_decide (neighbor ∈ unvisited) then
        dc ← getitem distances current;
        let new_distance := dist_add dc weight in
        dn ← getitem distances neighbor;
        if dist_lt new_distance dn
        then relax_loop unvisited current items
               (<[neighbor := new_distance]> distances)
        else relax_loop unvisited current items distances
      else relax_loop unvisited current items distances
  end.

(** The [while unvisited] loop. *)
Fixpoint dijkstra_loop (fuel : nat) (graph : gmap K (gmap K Z))
    (distances : gmap K dist) (unvisited : gset K)
    : outcome (gmap K dist) :=
  match fuel with
  | 0 => OutOfFuel
  | S fuel =>
      if bool_decide (unvisited ≠ ∅) then
        current ← min_by (getitem distances) (set_iter unvisited);
        dc ← getitem distances current;
        if bool_decide (dc = Inf) then Ok distances
        else
          nbrs ← getitem graph current;
          distances ← relax_loop unvisited current (dict_items nbrs) distances;
          if bool_decide (current ∈ unvisited)
          then dijkstra_loop fuel graph distances (unvisited ∖ {[current]})
          else Raise KeyError
      else Ok distances
  end.

Definition dijkstra_shortest_path (graph : gmap K (gmap K Z)) (start : K)
    : outcome (gmap K dist) :=
  let distances := (λ _, Inf) <$> graph in
  let distances := <[start := Fin 0]> distances in
  let unvisited := dom graph in
  dijkstra_loop (S (size graph)) graph distances unvisited.

(** How the distances [D'] after the edges [items] of [current] have been
    relaxed relate to the distances [D] before, [dc] being the distance
    of [current]: nothing is added or removed, visited nodes keep their
    distance, distances only decrease, a new distance is [dc] plus the
    weight of an edge, and no edge to an unvisited node is left tense. *)
Definition relaxed (U : gset K) (current : K) (dc : Z)
    (items : list (K * Z)) (D D' : gmap K dist) : Prop :=
  D' !! current = Some (Fin dc)
  ∧ (∀ v, is_Some (D' !! v) ↔ is_Some (D !! v))
  ∧ (∀ v, v ∉ U → D' !! v = D !! v)
  ∧ (∀ v dv, D !! v = Some dv →
       ∃ dv', D' !! v = Some dv' ∧ dist_lt dv dv' = false)
  ∧ (∀ v d', D' !! v = Some (Fin d') →
       D !! v = Some (Fin d') ∨ ∃ e, (v, e) ∈ items ∧ d' = (dc + e)%Z)
  ∧ (∀ v e, (v, e) ∈ items → v ∈ U →
       ∃ d', D' !! v = Some (Fin d') ∧ (d' ≤ dc + e)%Z).

(** The iteration orders are orders of the elements. *)
Definition iteration_orders : Prop :=
  (∀ s, set_iter s ≡ₚ elements s) ∧ (∀ d, dict_items d ≡ₚ map_to_list d).

End dijkstra.

Section paths.
Context `{Countable K}.
Variable graph : gmap K (gmap K Z).

(** [edge u v w]: the graph has an edge from [u] to [v] of weight [w]. *)
Definition edge (u v : K) (w : Z) : Prop :=
  ∃ nbrs, graph !! u = Some nbrs ∧ nbrs !! v = Some w.

(** [path u v w]: some path leads from [u] to [v] with total weight [w]. *)
Inductive path (u : K) : K → Z → Prop :=
  | path_nil : path u u 0
  | path_snoc x v w e : path u x w → edge x v e → path u v (w + e).

Definition nonneg_weights : Prop := ∀ u v w, edge u v w → (0 ≤ w)%Z.

(** [d] is the least total weight of a path from [u] to [v]. *)
Definition shortest (u v : K) (d : Z) : Prop :=
  path u v d ∧ ∀ w, path u v w → (d ≤ w)%Z.

Definition unreachable (u v : K) : Prop := ∀ w, ¬ path u v w.

(** What the result says about a node. *)
Definition right_distance (start : K) (distances : gmap K dist) (n : K)
    : Prop :=
  match distances !! n with
  | Some (Fin d) => shortest start n d
  | Some Inf => unreachable start n
  | None => False
  end.

(** A result is right when it has the nodes of the graph as keys, maps
    the start to 0 and says the right thing about every node. *)
Definition correct_distances (start : K) (distances : gmap K dist) : Prop :=
  dom distances = dom graph
  ∧ distances !! start = Some (Fin 0)
  ∧ ∀ n, n ∈ dom graph → right_distance start distances n.

(** The invariant of the [while] loop, on the distances [D] and the
    unvisited set [U]: the keys are the nodes; the start is at 0; every
    finite distance is the weight of a path; visited nodes have a finite
    distance, have no tense outgoing edge, and are no farther than any
    unvisited node. *)
Definition inv (start : K) (D : gmap K dist) (U : gset K) : Prop :=
  (∀ v, is_Some (D !! v) ↔ v ∈ dom graph)
  ∧ U ⊆ dom graph
  ∧ D !! start = Some (Fin 0)
  ∧ (∀ v d, D !! v = Some (Fin d) → path start v d)
  ∧ (∀ u, u ∈ dom graph → u ∉ U → ∃ du, D !! u = Some (Fin du))
  ∧ (∀ u v e du, u ∉ U → D !! u = Some (Fin du) → edge u v e →
       v ∈ dom graph → ∃ dv, D !! v = Some (Fin dv) ∧ (dv ≤ du + e)%Z)
  ∧ (∀ u v du dv, u ∉ U → v ∈ U → D !! u = Some du → D !! v = Some dv →
       dist_lt dv du = false).

End paths.

(** The graph of the specification's example. *)
Definition example_graph : gmap string (gmap string Z) :=
  {[ "A" := {[ "B" := 1%Z; "C" := 4%Z ]};
     "B" := {[ "C" := 2%Z; "D" := 5%Z ]};
     "C" := {[ "D" := 1%Z ]};
     "D" := ∅ ]}.

End Dijkstra.

(** ** Memoized Fibonacci *)

Module Fib.

(** The inner [fib], with the dictionary [memo] threaded through. *)
Fixpoint fib (fuel : nat) (num : Z) (memo : gmap Z Z)
    : outcome (Z * gmap Z Z) :=
  match fuel with
  | 0 => OutOfFuel
  | S fuel =>
      if bool_decide (num ∈ dom memo) then
        v ← getitem memo num; Ok (v, memo)
      else if bool_decide (num ≤ 1)%Z then Ok (num, memo)
      else
        '(a, memo) ← fib fuel (num - 1)%Z memo;
        '(b, memo) ← fib fuel (num - 2)%Z memo;
        let result := (a + b)%Z in
        Ok (result, <[num := result]> memo)
  end.

Definition fibonacci_dynamic (n : Z) : outcome Z :=
  '(r, _) ← fib (S (Z.to_nat n)) n ∅; Ok r.

(** The naive recursive reference of the specification:
    fib(0)=0, fib(1)=1, fib(k)=fib(k-1)+fib(k-2). *)
Fixpoint fib_ref (k : nat) : Z :=
  match k with
  | 0 => 0%Z
  | S k' =>
      match k' with
      | 0 => 1%Z
      | S k'' => (fib_ref k' + fib_ref k'')%Z
      end
  end.

(** What [fib] returns for [num], whatever the cache holds. *)
Definition fib_value (num : Z) : Z :=
  if bool_decide (num ≤ 1)%Z then num else fib_ref (Z.to_nat num).

(** Every cached entry is the value of its key, and only keys from 2 on
    are cached. *)
Definition memo_ok (memo : gmap Z Z) : Prop :=
  ∀ k v, memo !! k = Some v → (2 ≤ k)%Z ∧ v = fib_value k.

(** The keys of the cache are the integers from 2 to [m]. *)
Definition memo_upto (m : Z) (memo : gmap Z Z) : Prop :=
  ∀ k, k ∈ dom memo ↔ (2 ≤ k ≤ m)%Z.

End Fib.

(** * Proofs *)

Lemma bind_Ok {A B} (a : A) (f : A → outcome B) : Ok a ≫= f = f a.
Proof. reflexivity. Qed.

Lemma getitem_Some `{Countable K} {V} (d : gmap K V) (k : K) (v : V) :
  d !! k = Some v → getitem d k = Ok v.
Proof. unfold getitem. by intros ->. Qed.

Lemma elem_of_remove `{Countable K} (U : gset K) (v c : K) :
  v ∈ U ∖ {[c]} → v ∈ U ∧ v ≠ c.
Proof. set_solver. Qed.

Lemma not_elem_of_remove `{Countable K} (U : gset K) (u c : K) :
  u ∉ U ∖ {[c]} → u ≠ c → u ∉ U.
Proof. set_solver. Qed.

Lemma filter_none {A} (P : A → Prop) `{∀ x, Decision (P x)} (l : list A) :
  (∀ x, x ∈ l → ¬ P x) → filter P l = [].
Proof.
  induction l as [|x l IH]; intros Hl; [done|].
  rewrite filter_cons_False by (apply Hl; left).
  apply IH. intros z Hz. apply Hl. by right.
Qed.

(** ** Merge sort *)

Section sort_proofs.
Context {A : Type} (le : A → A → bool).
Local Abbreviation R := (Sort.le_rel le).

(** The index loop of [merge] computes the list merge of the two
    remaining runs, appended to what it has already produced. *)
Lemma merge_loop_spec fuel (l r : list A) i j res :
  (length l - i) + (length r - j) < fuel →
  Sort.merge_loop le fuel l r i j res
  = Ok (res ++ list_merge R (drop i l) (drop j r)).
Proof.
  revert i j res. induction fuel as [|fuel IH]; intros i j res Hf; [lia|].
  simpl. case_bool_decide as Hi; [case_bool_decide as Hj|]; simpl.
  - destruct (lookup_lt_is_Some_2 l i Hi) as [x Hx].
    destruct (lookup_lt_is_Some_2 r j Hj) as [y Hy].
    unfold index. rewrite Hx, Hy. simpl.
    rewrite (drop_S l x i Hx), (drop_S r y j Hy), list_merge_cons.
    destruct (le x y) eqn:E.
    + rewrite decide_True by done.
      rewrite IH by lia. rewrite (drop_S r y j Hy), <- app_assoc. done.
    + rewrite decide_False by (unfold Sort.le_rel; congruence).
      rewrite IH by lia. rewrite (drop_S l x i Hx), <- app_assoc. done.
  - rewrite (drop_ge r j) by lia.
    rewrite list_merge_nil_r, !app_nil_r. done.
  - rewrite (drop_ge l i) by lia.
    rewrite list_merge_nil_l, app_nil_r. done.
Qed.

Lemma merge_spec (l r : list A) : Sort.merge le l r = Ok (list_merge R l r).
Proof. unfold Sort.merge. rewrite merge_loop_spec by lia. done. Qed.

Lemma merge_sort_rec_S fuel (arr : list A) :
  Sort.merge_sort_rec le (S fuel) arr =
  if bool_decide (length arr ≤ 1) then Ok arr
  else
    left ← Sort.merge_sort_rec le fuel (take (length arr `div` 2) arr);
    right ← Sort.merge_sort_rec le fuel (drop (length arr `div` 2) arr);
    Sort.merge le left right.
Proof. reflexivity. Qed.

(** An induction principle for [merge_sort]: the call returns, and its
    result satisfies every relation to the input that holds in the base
    case and is preserved by splitting and merging. *)
Lemma merge_sort_rec_ind (P : list A → list A → Prop) :
  (∀ arr, length arr ≤ 1 → P arr arr) →
  (∀ arr l r, 1 < length arr →
     P (take (length arr `div` 2) arr) l →
     P (drop (length arr `div` 2) arr) r →
     P arr (list_merge R l r)) →
  ∀ fuel arr, length arr < fuel →
    ∃ out, Sort.merge_sort_rec le fuel arr = Ok out ∧ P arr out.
Proof.
  intros Hbase Hstep. induction fuel as [|fuel IH]; intros arr Hf; [lia|].
  rewrite merge_sort_rec_S. case_bool_decide as Hlen; [eauto|].
  assert (0 < length arr `div` 2 < length arr) as Hmid.
  { split; [apply Nat.div_str_pos; lia | apply Nat.div_lt; lia]. }
  destruct (IH (take (length arr `div` 2) arr)) as (l & -> & Hl).
  { rewrite length_take. lia. }
  destruct (IH (drop (length arr `div` 2) arr)) as (r & -> & Hr).
  { rewrite length_drop. lia. }
  rewrite !bind_Ok, merge_spec.
  eexists; split; [done|]. apply Hstep; [lia|done..].
Qed.

Lemma merge_sort_ind (P : list A → list A → Prop) :
  (∀ arr, length arr ≤ 1 → P arr arr) →
  (∀ arr l r, 1 < length arr →
     P (take (length arr `div` 2) arr) l →
     P (drop (length arr `div` 2) arr) r →
     P arr (list_merge R l r)) →
  ∀ arr, ∃ out, Sort.merge_sort le arr = Ok out ∧ P arr out.
Proof. intros ?? arr. apply merge_sort_rec_ind; [done..|lia]. Qed.

Lemma same_key_le x y :
  Sort.same_key le x y ↔ R x y ∧ R y x.
Proof.
  unfold Sort.same_key, Sort.le_rel.
  rewrite andb_True, !Is_true_true. done.
Qed.

(** Merging keeps every class of equal elements in order: those of the
    left run come first, each run in its own order. *)
Lemma list_merge_filter `{!Total R, !Transitive R} (k : A) (l r : list A) :
  StronglySorted R l →
  filter (λ y, Sort.same_key le k y) (list_merge R l r)
  = filter (λ y, Sort.same_key le k y) l
    ++ filter (λ y, Sort.same_key le k y) r.
Proof.
  revert r. induction l as [|x l IHl]; intros r Hl.
  { by rewrite list_merge_nil_l. }
  induction r as [|y r IHr].
  { by rewrite list_merge_nil_r, app_nil_r. }
  rewrite list_merge_cons. case_decide as Hxy.
  - rewrite !filter_cons, IHl by (by inversion Hl).
    case_decide; done.
  - destruct (decide (Sort.same_key le k y)) as [Hky|Hky].
    2: { by rewrite !(filter_cons_False _ y) by done. }
    rewrite !(filter_cons_True _ y), IHr by done.
    assert (filter (λ z, Sort.same_key le k z) (x :: l) = []) as ->; [|done].
    apply filter_none. intros z Hz Hkz.
    apply same_key_le in Hky as [Hky Hyk], Hkz as [Hkz Hzk].
    apply Hxy. assert (R x z) as Hxz.
    { apply StronglySorted_cons in Hl as [Hl _].
      apply elem_of_cons in Hz as [->|Hz].
      - destruct (total R x x); done.
      - rewrite Forall_forall in Hl. by apply Hl. }
    trans z; [done|]. by trans k.
Qed.

(** Merging two runs, the first of which lies below the second, appends
    them. *)
Lemma list_merge_app (l r : list A) :
  (∀ x y, x ∈ l → y ∈ r → R x y) → list_merge R l r = l ++ r.
Proof.
  revert r. induction l as [|x l IHl]; intros r Hlr.
  { by rewrite list_merge_nil_l. }
  destruct r as [|y r]; [by rewrite list_merge_nil_r, app_nil_r|].
  rewrite list_merge_cons, decide_True by (apply Hlr; left).
  rewrite IHl; [done|]. intros ????. apply Hlr; [by right|done].
Qed.

Lemma merge_sort_sorts `{!Total R, !Transitive R}
    (arr : list A) :
  ∃ out, Sort.merge_sort le arr = Ok out ∧ out ≡ₚ arr ∧ StronglySorted R out.
Proof.
  destruct (merge_sort_ind (λ arr out, out ≡ₚ arr ∧ Sorted R out)) with arr
    as (out & Hout & Hperm & Hsorted).
  - intros l Hl. split; [done|].
    destruct l as [|x [|y l]]; simpl in Hl; [repeat constructor..|lia].
  - intros l l1 l2 _ [Hp1 Hs1] [Hp2 Hs2]. split.
    + rewrite merge_Permutation, Hp1, Hp2. by rewrite take_drop.
    + by apply Sorted_list_merge.
  - exists out. split_and!; [done..|]. by apply Sorted_StronglySorted.
Qed.

(** C3: whatever the input, [merge_sort] returns a permutation of it that
    is in non-decreasing order (the elements being totally ordered by
    [<=]). *)
Theorem merge_sort_permutation_sorted (arr : list A) :
  Total R → Transitive R →
  ∃ out, Sort.merge_sort le arr = Ok out ∧ out ≡ₚ arr ∧ StronglySorted R out.
Proof. intros ??. apply merge_sort_sorts. Qed.

(** C7: [merge_sort] is stable: for every element [k], the elements that
    compare equal to [k] occur in the output in the order in which they
    occur in the input. *)
Theorem merge_sort_stable (arr : list A) :
  Total R → Transitive R →
  ∃ out, Sort.merge_sort le arr = Ok out ∧
    ∀ k, filter (λ y, Sort.same_key le k y) out
         = filter (λ y, Sort.same_key le k y) arr.
Proof.
  intros ??.
  destruct (merge_sort_ind (λ arr out, StronglySorted R out ∧
      ∀ k, filter (λ y, Sort.same_key le k y) out
           = filter (λ y, Sort.same_key le k y) arr)) with arr
    as (out & Hout & _ & Hstable).
  - intros l Hl. split; [|done].
    destruct l as [|x [|y l]]; simpl in Hl; [repeat constructor..|lia].
  - intros l l1 l2 _ [Hs1 Hf1] [Hs2 Hf2]. split.
    + apply Sorted_StronglySorted; [done|].
      apply Sorted_list_merge; [done|by apply StronglySorted_Sorted..].
    + intros k. rewrite list_merge_filter, Hf1, Hf2 by done.
      by rewrite <- filter_app, take_drop.
  - eauto.
Qed.

(** [merge_sort] returns a sorted input as it is. *)
Lemma merge_sort_sorted_id (arr : list A) :
  ∃ out, Sort.merge_sort le arr = Ok out ∧ (StronglySorted R arr → out = arr).
Proof.
  apply (merge_sort_ind (λ arr out, StronglySorted R arr → out = arr)).
  - done.
  - intros l l1 l2 _ H1 H2 Hl. rewrite <- (take_drop (length l `div` 2) l) in Hl.
    rewrite H1, H2 by eauto using StronglySorted_app_1_l, StronglySorted_app_1_r.
    rewrite list_merge_app; [apply take_drop|].
    intros. by eapply StronglySorted_app_1_elem_of.
Qed.

(** C8: [merge_sort] is idempotent: a sequence already in non-decreasing
    order (the empty one included) is returned as it is, and sorting the
    result of a sort changes nothing. *)
Theorem merge_sort_idempotent :
  Total R → Transitive R →
  (∀ arr, StronglySorted R arr → Sort.merge_sort le arr = Ok arr) ∧
  Sort.merge_sort le [] = Ok [] ∧
  (∀ arr, ∃ out, Sort.merge_sort le arr = Ok out
                 ∧ Sort.merge_sort le out = Ok out).
Proof.
  intros ??.
  assert (∀ arr, StronglySorted R arr → Sort.merge_sort le arr = Ok arr) as Hid.
  { intros arr Hs. destruct (merge_sort_sorted_id arr) as (out & -> & Hout).
    by rewrite Hout. }
  split_and!; [done|done|]. intros arr.
  destruct (merge_sort_sorts arr) as (out & Hout & _ & Hs).
  exists out. split; [done|]. by apply Hid.
Qed.

End sort_proofs.

(** ** Binary search *)

Section search_proofs.
Context {A : Type} (eqb ltb : A → A → bool).
Implicit Types (arr : list A) (target : A) (left right : Z).

Lemma index_Z_in_range arr (i : Z) :
  (0 ≤ i < Z.of_nat (length arr))%Z →
  ∃ x, arr !! Z.to_nat i = Some x ∧ index_Z arr i = Ok x.
Proof.
  intros Hi. destruct (lookup_lt_is_Some_2 arr (Z.to_nat i)) as [x Hx]; [lia|].
  exists x. split; [done|]. unfold index_Z, index.
  rewrite bool_decide_true by done. by rewrite Hx.
Qed.

Lemma midpoint_bounds left right :
  (left ≤ right)%Z →
  (left ≤ (left + right) `div` 2 ≤ right)%Z.
Proof. intros. Z.div_mod_to_equations. lia. Qed.

Lemma binary_search_loop_S fuel arr target left right :
  BinSearch.binary_search_loop eqb ltb (S fuel) arr target left right =
  if bool_decide (left ≤ right)%Z then
    mid_value ← index_Z arr ((left + right) `div` 2)%Z;
    if eqb mid_value target then Ok ((left + right) `div` 2)%Z
    else if ltb mid_value target then
      if bool_decide ((left + right) `div` 2 < Z.of_nat (length arr) - 1)%Z
      then BinSearch.binary_search_loop eqb ltb fuel arr target
             ((left + right) `div` 2 + 1)%Z right
      else Ok (-1)%Z
    else
      if bool_decide ((left + right) `div` 2 > 0)%Z
      then BinSearch.binary_search_loop eqb ltb fuel arr target left
             ((left + right) `div` 2 - 1)%Z
      else Ok (-1)%Z
  else Ok (-1)%Z.
Proof. reflexivity. Qed.

Lemma simple_search_loop_S fuel arr target left right :
  BinSearch.simple_search_loop eqb ltb (S fuel) arr target left right =
  if bool_decide (left ≤ right)%Z then
    mid_value ← index_Z arr ((left + right) `div` 2)%Z;
    if eqb mid_value target then Ok ((left + right) `div` 2)%Z
    else if ltb mid_value target
    then BinSearch.simple_search_loop eqb ltb fuel arr target
           ((left + right) `div` 2 + 1)%Z right
    else BinSearch.simple_search_loop eqb ltb fuel arr target left
           ((left + right) `div` 2 - 1)%Z
  else Ok (-1)%Z.
Proof. reflexivity. Qed.

(** The loop on a window [left..right] that holds every occurrence of
    the target: it returns the index of an occurrence, or [-1] when there
    is none. *)
Lemma binary_search_loop_spec arr target :
  BinSearch.total_order eqb ltb → BinSearch.ascending ltb arr →
  ∀ fuel left right,
    (0 ≤ left)%Z → (right < Z.of_nat (length arr))%Z →
    Z.to_nat (right - left + 1) < fuel →
    (∀ i, arr !! i = Some target → (left ≤ Z.of_nat i ≤ right)%Z) →
    (∃ j, BinSearch.binary_search_loop eqb ltb fuel arr target left right = Ok j
          ∧ (0 ≤ j < Z.of_nat (length arr))%Z
          ∧ arr !! Z.to_nat j = Some target)
    ∨ (BinSearch.binary_search_loop eqb ltb fuel arr target left right = Ok (-1)%Z
       ∧ target ∉ arr).
Proof.
  intros Hord Hasc. induction fuel as [|fuel IH]; intros left right Hl Hr Hf Hwin; [lia|].
  rewrite binary_search_loop_S. case_bool_decide as Hlr.
  2: { right. split; [done|]. intros [i Hi]%list_elem_of_lookup.
       apply Hwin in Hi. lia. }
  pose proof (midpoint_bounds left right Hlr) as Hmid.
  set (mid := ((left + right) `div` 2)%Z) in *.
  destruct (index_Z_in_range arr mid) as (v & Hv & ->); [lia|].
  rewrite bind_Ok. destruct (eqb v target) eqn:Heq.
  { apply (BinSearch.eqb_eq _ _ Hord) in Heq as ->. left. exists mid.
    split_and!; [done|lia..|done]. }
  assert (v ≠ target) as Hne.
  { intros Hvt. apply (BinSearch.eqb_eq _ _ Hord) in Hvt. congruence. }
  destruct (ltb v target) eqn:Hlt.
  - assert (∀ i, arr !! i = Some target → (mid + 1 ≤ Z.of_nat i ≤ right)%Z) as Hwin'.
    { intros i Hi. split; [|by apply Hwin].
      destruct (decide (i ≤ Z.to_nat mid)) as [Hle|]; [|lia].
      rewrite (Hasc _ _ _ _ Hi Hv Hle) in Hlt. done. }
    case_bool_decide.
    + apply IH; [lia..|done].
    + right. split; [done|]. intros [i Hi]%list_elem_of_lookup.
      pose proof (lookup_lt_Some _ _ _ Hi). apply Hwin' in Hi. lia.
  - assert (ltb target v = true) as Hgt.
    { destruct (BinSearch.ltb_total _ _ Hord v target) as [?|[?|?]]; [congruence|done..]. }
    assert (∀ i, arr !! i = Some target → (left ≤ Z.of_nat i ≤ mid - 1)%Z) as Hwin'.
    { intros i Hi. split; [by apply Hwin|].
      destruct (decide (Z.to_nat mid ≤ i)) as [Hle|]; [|lia].
      rewrite (Hasc _ _ _ _ Hv Hi Hle) in Hgt. done. }
    case_bool_decide.
    + apply IH; [lia..|done].
    + right. split; [done|]. intros [i Hi]%list_elem_of_lookup.
      apply Hwin' in Hi. lia.
Qed.

(** With or without the early exits the loop returns the same value. *)
Lemma search_loops_agree arr target fuel left right :
  (0 ≤ left)%Z → (right < Z.of_nat (length arr))%Z →
  Z.to_nat (right - left + 1) < fuel →
  ∃ r, BinSearch.binary_search_loop eqb ltb fuel arr target left right = Ok r
       ∧ BinSearch.simple_search_loop eqb ltb fuel arr target left right = Ok r.
Proof.
  revert left right. induction fuel as [|fuel IH]; intros left right Hl Hr Hf; [lia|].
  rewrite binary_search_loop_S, simple_search_loop_S.
  case_bool_decide as Hlr; [|eauto].
  pose proof (midpoint_bounds left right Hlr) as Hmid.
  set (mid := ((left + right) `div` 2)%Z) in *.
  destruct (index_Z_in_range arr mid) as (v & Hv & ->); [lia|].
  rewrite !bind_Ok. destruct (eqb v target); [eauto|].
  destruct (ltb v target); case_bool_decide; try (apply IH; lia).
  - exists (-1)%Z. split; [done|]. destruct fuel as [|fuel]; [lia|].
    rewrite simple_search_loop_S, bool_decide_false by lia. done.
  - exists (-1)%Z. split; [done|]. destruct fuel as [|fuel]; [lia|].
    rewrite simple_search_loop_S, bool_decide_false by lia. done.
Qed.

Lemma binary_search_spec arr target :
  BinSearch.total_order eqb ltb → BinSearch.ascending ltb arr →
  (target ∈ arr →
     ∃ j, BinSearch.binary_search eqb ltb arr target = Ok j
          ∧ (0 ≤ j < Z.of_nat (length arr))%Z
          ∧ index_Z arr j = Ok target)
  ∧ (target ∉ arr → BinSearch.binary_search eqb ltb arr target = Ok (-1)%Z).
Proof.
  intros Hord Hasc. unfold BinSearch.binary_search.
  destruct (binary_search_loop_spec arr target Hord Hasc (S (length arr)) 0
              (Z.of_nat (length arr) - 1)) as [(j & Hj & Hrange & Hlook)|[Hj Hnot]].
  - done.
  - lia.
  - lia.
  - intros i Hi%lookup_lt_Some. lia.
  - split; [|intros []; by eapply list_elem_of_lookup_2].
    intros _. exists j. split_and!; [done|lia..|].
    destruct (index_Z_in_range arr j Hrange) as (x & Hx & ->). congruence.
  - split; [done|]. intros _. done.
Qed.

End search_proofs.

Lemma Z_total_order : BinSearch.total_order Z.eqb Z.ltb.
Proof.
  split.
  - apply Z.eqb_eq.
  - apply Z.ltb_irrefl.
  - intros x y z. rewrite !Z.ltb_lt. lia.
  - intros x y. rewrite !Z.ltb_lt. lia.
Qed.

Lemma ascending_Z (arr : list Z) :
  StronglySorted Z.le arr → BinSearch.ascending Z.ltb arr.
Proof.
  induction 1 as [|x arr Hs IH Hx]; intros i j a b Hi Hj Hij.
  { by rewrite lookup_nil in Hi. }
  apply Z.ltb_ge. destruct i as [|i], j as [|j]; simplify_eq/=.
  - lia.
  - rewrite Forall_forall in Hx. apply Hx. by eapply list_elem_of_lookup_2.
  - lia.
  - apply Z.ltb_ge. eapply IH; [done..|lia].
Qed.

(** C2: on a sequence in ascending order, [binary_search] returns the
    index of an occurrence of the target when there is one and the
    sentinel [-1] when there is none, and it never raises; on
    [[1,3,5,7,9]] it finds 7 at index 3 and does not find 4. *)
Theorem binary_search_correct :
  (∀ (A : Type) (eqb ltb : A → A → bool) (arr : list A) (target : A),
     BinSearch.total_order eqb ltb → BinSearch.ascending ltb arr →
     (target ∈ arr →
        ∃ j, BinSearch.binary_search eqb ltb arr target = Ok j
             ∧ (0 ≤ j < Z.of_nat (length arr))%Z
             ∧ index_Z arr j = Ok target)
     ∧ (target ∉ arr → BinSearch.binary_search eqb ltb arr target = Ok (-1)%Z))
  ∧ BinSearch.binary_search Z.eqb Z.ltb [1; 3; 5; 7; 9]%Z 7%Z = Ok 3%Z
  ∧ BinSearch.binary_search Z.eqb Z.ltb [1; 3; 5; 7; 9]%Z 4%Z = Ok (-1)%Z.
Proof.
  split; [|split; reflexivity]. intros. by apply binary_search_spec.
Qed.

(** C5: on a sequence in ascending order, [binary_search] with its two
    early exits returns what the plain two-branch search returns. *)
Theorem binary_search_early_exits_redundant {A : Type}
    (eqb ltb : A → A → bool) (arr : list A) (target : A) :
  BinSearch.ascending ltb arr →
  ∃ r, BinSearch.binary_search eqb ltb arr target = Ok r
       ∧ BinSearch.simple_search eqb ltb arr target = Ok r.
Proof. intros _. apply search_loops_agree; lia. Qed.

(** ** Memoized Fibonacci *)

Section fib_proofs.
Import Fib.
Local Open Scope Z_scope.

Lemma fib_ref_SS (k : nat) :
  Fib.fib_ref (S (S k)) = Fib.fib_ref (S k) + Fib.fib_ref k.
Proof. reflexivity. Qed.

Lemma fib_value_nonneg (n : Z) : 0 ≤ n → fib_value n = Fib.fib_ref (Z.to_nat n).
Proof.
  intros Hn. unfold fib_value. case_bool_decide; [|done].
  destruct (decide (n = 0)) as [->|]; [done|].
  assert (n = 1) as -> by lia. done.
Qed.

Lemma fib_value_rec (n : Z) :
  2 ≤ n → fib_value n = fib_value (n - 1) + fib_value (n - 2).
Proof.
  intros Hn. rewrite !fib_value_nonneg by lia.
  replace (Z.to_nat n) with (S (S (Z.to_nat (n - 2)))) by lia.
  replace (Z.to_nat (n - 1)) with (S (Z.to_nat (n - 2))) by lia.
  apply fib_ref_SS.
Qed.

Lemma fib_S fuel num memo :
  Fib.fib (S fuel) num memo =
  if bool_decide (num ∈ dom memo) then v ← getitem memo num; Ok (v, memo)
  else if bool_decide (num ≤ 1) then Ok (num, memo)
  else
    '(a, memo) ← Fib.fib fuel (num - 1) memo;
    '(b, memo) ← Fib.fib fuel (num - 2) memo;
    Ok (a + b, <[num := a + b]> memo).
Proof. reflexivity. Qed.

Lemma fib_spec (fuel : nat) :
  ∀ num memo, memo_ok memo → (Z.to_nat num ≤ fuel)%nat →
    ∃ memo', Fib.fib (S fuel) num memo = Ok (fib_value num, memo')
             ∧ memo_ok memo'.
Proof.
  induction fuel as [|fuel IH]; intros num memo Hok Hf; rewrite fib_S.
  - rewrite bool_decide_false.
    2: { intros [v Hv]%elem_of_dom. apply Hok in Hv. lia. }
    rewrite bool_decide_true by lia. exists memo. split; [|done].
    unfold fib_value. by rewrite bool_decide_true by lia.
  - case_bool_decide as Hin.
    { apply elem_of_dom in Hin as [v Hv]. unfold getitem. rewrite Hv, bind_Ok.
      exists memo. split; [|done]. by destruct (Hok _ _ Hv) as [_ ->]. }
    case_bool_decide as Hle.
    { exists memo. split; [|done]. unfold fib_value. by rewrite bool_decide_true. }
    destruct (IH (num - 1) memo Hok) as (memo1 & -> & Hok1); [lia|].
    rewrite bind_Ok.
    destruct (IH (num - 2) memo1 Hok1) as (memo2 & -> & Hok2); [lia|].
    rewrite bind_Ok, <- fib_value_rec by lia.
    eexists; split; [done|]. intros k v.
    rewrite lookup_insert. case_decide as Hk; [|by apply Hok2].
    intros [= <-]. subst k. split; [lia|done].
Qed.

Lemma fibonacci_dynamic_value (n : Z) :
  Fib.fibonacci_dynamic n = Ok (fib_value n).
Proof.
  unfold Fib.fibonacci_dynamic.
  destruct (fib_spec (Z.to_nat n) n ∅) as (memo & -> & _); [|lia|done].
  intros k v. by rewrite lookup_empty.
Qed.

(** C4: for every non-negative [n], [fibonacci_dynamic n] is the value of
    the naive recursive reference; it is 0, 1 and 55 at 0, 1 and 10; and
    from 2 on each value is the sum of the two before it. *)
Theorem fibonacci_dynamic_refines_reference :
  (∀ n, 0 ≤ n → Fib.fibonacci_dynamic n = Ok (Fib.fib_ref (Z.to_nat n)))
  ∧ Fib.fibonacci_dynamic 0 = Ok 0
  ∧ Fib.fibonacci_dynamic 1 = Ok 1
  ∧ Fib.fibonacci_dynamic 10 = Ok 55
  ∧ (∀ n, 2 ≤ n →
       ∃ a b c, Fib.fibonacci_dynamic n = Ok a
                ∧ Fib.fibonacci_dynamic (n - 1) = Ok b
                ∧ Fib.fibonacci_dynamic (n - 2) = Ok c
                ∧ a = b + c).
Proof.
  split_and!; [|reflexivity..|].
  - intros n Hn. by rewrite fibonacci_dynamic_value, fib_value_nonneg.
  - intros n Hn. exists (fib_value n), (fib_value (n - 1)), (fib_value (n - 2)).
    rewrite !fibonacci_dynamic_value. split_and!; [done..|].
    by apply fib_value_rec.
Qed.

(** C10: for every integer [n ≤ 1], negative ones included,
    [fibonacci_dynamic n] returns [n] itself and raises nothing. *)
Theorem fibonacci_dynamic_base (n : Z) :
  n ≤ 1 → Fib.fibonacci_dynamic n = Ok n.
Proof.
  intros Hn. rewrite fibonacci_dynamic_value. unfold fib_value.
  by rewrite bool_decide_true.
Qed.

End fib_proofs.

(** ** Dijkstra's shortest paths *)

Import Dijkstra.

Ltac dist_cases :=
  repeat match goal with d : dist |- _ => destruct d end;
  simpl in *; repeat case_bool_decide; simplify_eq; try done; try lia.

Lemma dist_lt_irrefl (a : dist) : dist_lt a a = false.
Proof. dist_cases. Qed.

Lemma dist_lt_false_trans (a b c : dist) :
  dist_lt b a = false → dist_lt c b = false → dist_lt c a = false.
Proof. dist_cases. Qed.

Lemma dist_lt_true_false (a b c : dist) :
  dist_lt a b = true → dist_lt a c = false → dist_lt b c = false.
Proof. dist_cases. Qed.

Lemma dist_lt_Inf_false (a : dist) : dist_lt a Inf = false → a = Inf.
Proof. dist_cases. Qed.

Section dijkstra_proofs.
Context `{Countable K}.
Variable set_iter : gset K → list K.
Variable dict_items : gmap K Z → list (K * Z).
Implicit Types (D : gmap K dist) (U : gset K) (graph : gmap K (gmap K Z)).

(** *** [min] with a key *)

Lemma min_loop_spec D (xs : list K) :
  ∀ best bk,
    D !! best = Some bk → (∀ x, x ∈ xs → is_Some (D !! x)) →
    ∃ c kc, min_loop (getitem D) best bk xs = Ok c
            ∧ c ∈ best :: xs ∧ D !! c = Some kc
            ∧ ∀ x kx, x ∈ best :: xs → D !! x = Some kx → dist_lt kx kc = false.
Proof.
  induction xs as [|x xs IH]; intros best bk Hbest Hxs; simpl.
  { exists best, bk. split_and!; [done|by left|done|].
    intros x kx ->%list_elem_of_singleton ?. simplify_eq. apply dist_lt_irrefl. }
  destruct (Hxs x) as [kx Hx]; [by left|].
  rewrite (getitem_Some _ _ _ Hx), bind_Ok.
  destruct (dist_lt kx bk) eqn:Hlt.
  - destruct (IH x kx Hx) as (c & kc & -> & Hc & Hkc & Hmin).
    { intros ??. apply Hxs. by right. }
    exists c, kc. split_and!; [done|by right|done|].
    intros y ky [->|Hy]%elem_of_cons Hky; [|by eapply Hmin].
    simplify_eq. eapply dist_lt_true_false; [done|]. eapply Hmin; [by left|done].
  - destruct (IH best bk Hbest) as (c & kc & -> & Hc & Hkc & Hmin).
    { intros ??. apply Hxs. by right. }
    exists c, kc. split_and!; [done| |done|].
    { apply elem_of_cons in Hc as [->|Hc]; [by left|by do 2 right]. }
    intros y ky [->|[->|Hy]%elem_of_cons]%elem_of_cons Hky.
    + eapply Hmin; [by left|done].
    + simplify_eq. eapply dist_lt_false_trans; [|done].
      eapply Hmin; [by left|done].
    + eapply Hmin; [by right|done].
Qed.

(** On a non-empty sequence whose elements all have a distance, [min]
    returns an element of the sequence whose distance is the least. *)
Lemma min_by_spec D (xs : list K) :
  xs ≠ [] → (∀ x, x ∈ xs → is_Some (D !! x)) →
  ∃ c kc, min_by (getitem D) xs = Ok c ∧ c ∈ xs ∧ D !! c = Some kc
          ∧ ∀ x kx, x ∈ xs → D !! x = Some kx → dist_lt kx kc = false.
Proof.
  destruct xs as [|x xs]; [done|]. intros _ Hxs. simpl.
  destruct (Hxs x) as [kx Hx]; [by left|].
  rewrite (getitem_Some _ _ _ Hx), bind_Ok.
  apply min_loop_spec; [done|]. intros ??. apply Hxs. by right.
Qed.

(** *** Iteration orders *)

Hypothesis orders : iteration_orders set_iter dict_items.

Lemma set_iter_elem U x : x ∈ set_iter U ↔ x ∈ U.
Proof. destruct orders as [Hs _]. by rewrite Hs, elem_of_elements. Qed.

Lemma set_iter_nonempty U : U ≠ ∅ → set_iter U ≠ [].
Proof.
  intros HU Hnil. apply HU. apply set_eq. intros x.
  rewrite <- set_iter_elem, Hnil. split; [by intros ?%elem_of_nil|].
  by intros ?%not_elem_of_empty.
Qed.

Lemma dict_items_elem (d : gmap K Z) v e : (v, e) ∈ dict_items d ↔ d !! v = Some e.
Proof. destruct orders as [_ Hd]. by rewrite Hd, elem_of_map_to_list. Qed.

Lemma dijkstra_loop_S fuel graph D U :
  dijkstra_loop set_iter dict_items (S fuel) graph D U =
  if bool_decide (U ≠ ∅) then
    current ← min_by (getitem D) (set_iter U);
    dc ← getitem D current;
    if bool_decide (dc = Inf) then Ok D
    else
      nbrs ← getitem graph current;
      D' ← relax_loop U current (dict_items nbrs) D;
      if bool_decide (current ∈ U)
      then dijkstra_loop set_iter dict_items fuel graph D' (U ∖ {[current]})
      else Raise KeyError
  else Ok D.
Proof. reflexivity. Qed.

(** *** The relaxation loop *)

Lemma relaxed_nil U c dc D :
  D !! c = Some (Fin dc) → relaxed U c dc [] D D.
Proof.
  intros Hc. split_and!; [done..| | |].
  - intros v dv ->. eexists. split; [done|]. apply dist_lt_irrefl.
  - intros; by left.
  - intros v e Hv. by apply elem_of_nil in Hv.
Qed.

Lemma relaxed_app U c dc items1 items2 D D1 D2 :
  relaxed U c dc items1 D D1 → relaxed U c dc items2 D1 D2 →
  relaxed U c dc (items1 ++ items2) D D2.
Proof.
  intros (_ & Hb1 & Hc1 & Hd1 & He1 & Hf1) (Ha2 & Hb2 & Hc2 & Hd2 & He2 & Hf2).
  split_and!.
  - done.
  - intros v. by rewrite Hb2.
  - intros v Hv. by rewrite Hc2, Hc1.
  - intros v dv Hv. destruct (Hd1 _ _ Hv) as (dv1 & Hv1 & Hle1).
    destruct (Hd2 _ _ Hv1) as (dv2 & Hv2 & Hle2).
    exists dv2. split; [done|]. by eapply dist_lt_false_trans.
  - intros v d' Hv. destruct (He2 _ _ Hv) as [Hv1|(e & He & ->)].
    + destruct (He1 _ _ Hv1) as [?|(e & He & ->)]; [by left|].
      right. exists e. split; [|done]. apply elem_of_app. by left.
    + right. exists e. split; [|done]. apply elem_of_app. by right.
  - intros v e [Hin|Hin]%elem_of_app Hv; [|by eapply Hf2].
    destruct (Hf1 _ _ Hin Hv) as (d1 & Hv1 & Hle1).
    destruct (Hd2 _ _ Hv1) as ([d2|] & Hv2 & Hle2); [|done].
    exists d2. split; [done|]. simpl in Hle2. case_bool_decide; [done|lia].
Qed.

(** One turn of the [for] loop. *)
Lemma relax_loop_cons U c dc v e D items :
  (0 ≤ e)%Z → D !! c = Some (Fin dc) → (∀ x, x ∈ U → is_Some (D !! x)) →
  ∃ D1, relax_loop U c ((v, e) :: items) D = relax_loop U c items D1
        ∧ relaxed U c dc [(v, e)] D D1.
Proof.
  intros He Hc HU. simpl. case_bool_decide as Hv.
  2: { exists D. split; [done|].
       destruct (relaxed_nil U c dc D Hc) as (Ha & Hb & Hc' & Hd & He' & _).
       split_and!; [done..| |].
       - intros; by left.
       - by intros ?? [= -> ->]%list_elem_of_singleton ?. }
  destruct (HU v Hv) as [dn Hdn].
  rewrite (getitem_Some _ _ _ Hc), bind_Ok, (getitem_Some _ _ _ Hdn), bind_Ok.
  cbn [dist_add]. destruct (dist_lt (Fin (dc + e)) dn) eqn:Hlt.
  - assert (v ≠ c) as Hvc.
    { intros ->. simplify_eq. simpl in Hlt. case_bool_decide; [lia|done]. }
    exists (<[v := Fin (dc + e)%Z]> D). split; [done|]. split_and!.
    + by rewrite lookup_insert_ne.
    + intros x. rewrite lookup_insert. case_decide; [|done]. subst x.
      rewrite Hdn. split; eauto.
    + intros x Hx. rewrite lookup_insert_ne; [done|]. by intros ->.
    + intros x dx Hx. rewrite lookup_insert. case_decide.
      * subst x. simplify_eq. eexists. split; [done|].
        clear -Hlt. dist_cases.
      * eexists. split; [done|]. apply dist_lt_irrefl.
    + intros x d'. rewrite lookup_insert. case_decide; [|by left].
      subst x. intros [= <-]. right. exists e. split; [by left|done].
    + intros x e' [= -> ->]%list_elem_of_singleton _.
      rewrite lookup_insert_eq. eexists. split; [done|lia].
  - exists D. split; [done|].
    destruct (relaxed_nil U c dc D Hc) as (Ha & Hb & Hc' & Hd & He' & _).
    split_and!; [done..| |].
    + intros; by left.
    + intros x e' [= -> ->]%list_elem_of_singleton _.
      destruct dn as [dn|]; [|done]. exists dn. split; [done|].
      simpl in Hlt. case_bool_decide; [done|lia].
Qed.

Lemma relax_loop_spec U c dc (items : list (K * Z)) :
  ∀ D, (∀ v e, (v, e) ∈ items → (0 ≤ e)%Z) →
    D !! c = Some (Fin dc) → (∀ x, x ∈ U → is_Some (D !! x)) →
    ∃ D', relax_loop U c items D = Ok D' ∧ relaxed U c dc items D D'.
Proof.
  induction items as [|[v e] items IH]; intros D Hpos Hc HU.
  { exists D. split; [done|]. by apply relaxed_nil. }
  destruct (relax_loop_cons U c dc v e D items) as (D1 & -> & Hrel1); [|done..|].
  { apply (Hpos v). by left. }
  destruct (IH D1) as (D' & -> & Hrel).
  - intros ???. eapply Hpos. by right.
  - apply Hrel1.
  - intros x Hx. apply Hrel1. by apply HU.
  - exists D'. split; [done|]. by apply (relaxed_app _ _ _ [(v, e)] items _ D1).
Qed.

(** *** Paths and the loop invariant *)

Variable graph : gmap K (gmap K Z).
Variable start : K.
Hypothesis weights_nonneg : nonneg_weights graph.

Lemma path_nonneg u v w : path graph u v w → (0 ≤ w)%Z.
Proof.
  induction 1 as [|x v w e _ IH Hedge]; [done|].
  apply weights_nonneg in Hedge. lia.
Qed.

(** A path from the start either ends at a visited node whose distance
    it does not beat, or it is no shorter than the finite distance of
    some unvisited node. *)
Lemma path_reach D U n w :
  inv graph start D U → path graph start n w → n ∈ dom graph →
  ((n ∉ U) ∧ (∃ d, D !! n = Some (Fin d) ∧ (d ≤ w)%Z))
  ∨ (∃ v dv, v ∈ U ∧ D !! v = Some (Fin dv) ∧ (dv ≤ w)%Z).
Proof.
  intros (I1 & I2 & I3 & I4 & I5 & I6 & I7) Hp.
  induction Hp as [|x v w e Hp IH Hedge]; intros Hn.
  { destruct (decide (start ∈ U)); [right|left].
    - by exists start, 0%Z.
    - split; [done|]. by exists 0%Z. }
  pose proof (weights_nonneg _ _ _ Hedge) as He.
  destruct IH as [(Hx & dx & HDx & Hle)|(y & dy & Hy & HDy & Hle)].
  - destruct Hedge as (nbrs & Hg & _). apply elem_of_dom. eauto.
  - destruct (I6 _ _ _ _ Hx HDx Hedge Hn) as (dv & HDv & Hle').
    destruct (decide (v ∈ U)); [right|left].
    + exists v, dv. split_and!; [done..|lia].
    + split; [done|]. exists dv. split; [done|lia].
  - right. exists y, dy. split_and!; [done..|lia].
Qed.

(** When no unvisited node has a finite distance the distances are
    the right ones. *)
Lemma inv_exit D U :
  inv graph start D U →
  (∀ v dv, v ∈ U → D !! v = Some dv → dv = Inf) →
  correct_distances graph start D.
Proof.
  intros Hinv HU. pose proof Hinv as (I1 & I2 & I3 & I4 & _).
  split_and!; [|done|].
  { apply set_eq. intros v. rewrite elem_of_dom. apply I1. }
  intros n Hn. unfold right_distance.
  destruct (proj2 (I1 n) Hn) as [[d|] HDn]; rewrite HDn.
  - split; [by apply I4|]. intros w Hw.
    destruct (path_reach D U n w Hinv Hw Hn)
      as [(_ & d' & HDn' & Hle)|(y & dy & Hy & HDy & _)].
    + by simplify_eq.
    + by apply HU in HDy.
  - intros w Hw.
    destruct (path_reach D U n w Hinv Hw Hn)
      as [(_ & d' & HDn' & Hle)|(y & dy & Hy & HDy & _)].
    + by simplify_eq.
    + by apply HU in HDy.
Qed.

Lemma inv_init :
  start ∈ dom graph →
  inv graph start (<[start := Fin 0]> ((λ _, Inf) <$> graph)) (dom graph).
Proof.
  intros Hstart.
  assert (∀ v, is_Some ((<[start := Fin 0]> ((λ _ : gmap K Z, Inf) <$> graph)
                         : gmap K dist) !! v) ↔ v ∈ dom graph) as Hdom.
  { intros v. rewrite lookup_insert. case_decide; [subst; split; eauto|].
    rewrite lookup_fmap, fmap_is_Some. by rewrite elem_of_dom. }
  split_and!; [done|done|by rewrite lookup_insert_eq| | | |].
  - intros v d. rewrite lookup_insert. case_decide.
    + intros [= <-]. subst v. constructor.
    + rewrite lookup_fmap. by destruct (graph !! v).
  - done.
  - intros u v e du Hu HDu. destruct Hu. apply Hdom. eauto.
  - intros u v du dv Hu _ HDu. destruct Hu. apply Hdom. eauto.
Qed.

(** One turn of the [while] loop keeps the invariant. *)
Lemma inv_step D D' U c dc nbrs items :
  inv graph start D U →
  c ∈ U → D !! c = Some (Fin dc) →
  (∀ x kx, x ∈ U → D !! x = Some kx → dist_lt kx (Fin dc) = false) →
  graph !! c = Some nbrs → (∀ v e, (v, e) ∈ items ↔ nbrs !! v = Some e) →
  relaxed U c dc items D D' →
  inv graph start D' (U ∖ {[c]}).
Proof.
  intros (I1 & I2 & I3 & I4 & I5 & I6 & I7) Hc HDc Hmin Hnbrs Hitems
    (Ra & Rb & Rc & Rd & Re & Rf).
  assert (0 ≤ dc)%Z as Hdc by (eapply path_nonneg, I4, HDc).
  assert (∀ v e, (v, e) ∈ items → edge graph c v e) as Hedges.
  { intros v e Hv. exists nbrs. split; [done|]. by apply Hitems. }
  assert (∀ v d', v ∈ U → D' !! v = Some (Fin d') → (dc ≤ d')%Z) as Hlow.
  { intros v d' Hv HDv. destruct (Re _ _ HDv) as [HD|(e & He & ->)].
    - specialize (Hmin _ _ Hv HD). simpl in Hmin. case_bool_decide; [done|lia].
    - apply Hedges, weights_nonneg in He. lia. }
  split_and!.
  - intros v. rewrite Rb. apply I1.
  - intros v [Hv _]%elem_of_remove. by apply I2.
  - destruct (Rd _ _ I3) as ([d'|] & HD' & Hle); [|done].
    simpl in Hle. case_bool_decide; [done|]. rewrite HD'. do 2 f_equal.
    destruct (Re _ _ HD') as [HD|(e & He & ->)]; [by simplify_eq|].
    apply Hedges, weights_nonneg in He. lia.
  - intros v d HDv. destruct (Re _ _ HDv) as [HD|(e & He & ->)]; [by apply I4|].
    eapply path_snoc; [by apply I4|by apply Hedges].
  - intros u Hu Hnu. destruct (decide (u = c)) as [->|Hne]; [eauto|].
    pose proof (not_elem_of_remove _ _ _ Hnu Hne) as HuU.
    rewrite Rc by done. by apply I5.
  - intros u v e du Hnu HDu Hedge Hv.
    pose proof (weights_nonneg _ _ _ Hedge) as He.
    destruct (decide (u = c)) as [->|Hne].
    + assert (du = dc) as -> by congruence.
      destruct Hedge as (nbrs' & Hg & Hve). assert (nbrs' = nbrs) as -> by congruence.
      destruct (decide (v ∈ U)) as [HvU|HvU]; [apply Rf; [by apply Hitems|done]|].
      rewrite Rc by done. destruct (I5 v Hv HvU) as (dv & HDv).
      specialize (I7 _ _ _ _ HvU Hc HDv HDc). simpl in I7.
      exists dv. split; [done|]. case_bool_decide; [done|lia].
    + pose proof (not_elem_of_remove _ _ _ Hnu Hne) as HuU.
      rewrite Rc in HDu by done.
      destruct (I6 _ _ _ _ HuU HDu Hedge Hv) as (dv & HDv & Hle).
      destruct (Rd _ _ HDv) as ([dv'|] & HDv' & Hle'); [|done].
      exists dv'. split; [done|]. simpl in Hle'. case_bool_decide; [done|lia].
  - intros u v du dv Hnu Hv HDu HDv.
    apply elem_of_remove in Hv as [HvU _].
    assert (dist_lt (Fin dc) du = false) as Hu.
    { destruct (decide (u = c)) as [->|Hne].
      - assert (du = Fin dc) as -> by congruence. apply dist_lt_irrefl.
      - pose proof (not_elem_of_remove _ _ _ Hnu Hne) as HuU.
        rewrite Rc in HDu by done.
        exact (I7 _ _ _ _ HuU Hc HDu HDc). }
    destruct dv as [dv|]; [|by destruct du].
    apply (Hlow _ _ HvU) in HDv. clear -Hu HDv. dist_cases.
Qed.

(** From a state that satisfies the invariant the loop returns, and it
    returns the right distances. *)
Lemma dijkstra_loop_spec (fuel : nat) :
  ∀ D U, inv graph start D U → size U < fuel →
    ∃ D', dijkstra_loop set_iter dict_items fuel graph D U = Ok D'
          ∧ correct_distances graph start D'.
Proof.
  induction fuel as [|fuel IH]; intros D U Hinv Hf; [lia|].
  rewrite dijkstra_loop_S. case_bool_decide as HU.
  2: { exists D. split; [done|]. apply (inv_exit D U Hinv).
       intros v dv Hv. rewrite HU in Hv.
       by apply not_elem_of_empty in Hv. }
  pose proof Hinv as (I1 & I2 & _).
  destruct (min_by_spec D (set_iter U)) as (c & kc & -> & Hc & Hkc & Hmin).
  { by apply set_iter_nonempty. }
  { intros x Hx%set_iter_elem. apply I1. by apply I2. }
  apply set_iter_elem in Hc.
  rewrite bind_Ok, (getitem_Some _ _ _ Hkc), bind_Ok.
  case_bool_decide as Hinf.
  { subst kc. exists D. split; [done|]. apply (inv_exit D U Hinv).
    intros v dv Hv HDv. apply dist_lt_Inf_false.
    eapply Hmin; [by apply set_iter_elem|done]. }
  destruct kc as [dc|]; [|done].
  assert (is_Some (graph !! c)) as [nbrs Hnbrs] by (apply elem_of_dom; by apply I2).
  rewrite (getitem_Some _ _ _ Hnbrs), bind_Ok.
  destruct (relax_loop_spec U c dc (dict_items nbrs) D) as (D' & -> & Hrel).
  { intros v e Hv%dict_items_elem. apply (weights_nonneg c v). by exists nbrs. }
  { done. }
  { intros x Hx. apply I1. by apply I2. }
  rewrite bind_Ok, bool_decide_true by done. apply IH.
  - apply (inv_step D D' U c dc nbrs (dict_items nbrs)); [done..| |done| |done].
    + intros x kx Hx. apply Hmin. by apply set_iter_elem.
    + intros v e. apply dict_items_elem.
  - assert (size (U ∖ {[c]}) < size U); [|lia].
    by apply subset_size, subset_difference_elem_of.
Qed.

Lemma dijkstra_shortest_path_spec :
  start ∈ dom graph →
  ∃ D, dijkstra_shortest_path set_iter dict_items graph start = Ok D
       ∧ correct_distances graph start D.
Proof.
  intros Hstart. apply dijkstra_loop_spec; [by apply inv_init|].
  rewrite size_dom. lia.
Qed.

End dijkstra_proofs.

Section dijkstra_more.
Context `{Countable K}.
Implicit Types (D : gmap K dist) (graph : gmap K (gmap K Z)).

(** The right distances are determined by the graph and the start. *)
Lemma correct_distances_unique graph (start : K) D1 D2 :
  correct_distances graph start D1 → correct_distances graph start D2 →
  D1 = D2.
Proof.
  intros (Hdom1 & _ & H1) (Hdom2 & _ & H2). apply map_eq. intros n.
  destruct (decide (n ∈ dom graph)) as [Hn|Hn].
  - specialize (H1 n Hn). specialize (H2 n Hn). unfold right_distance in *.
    destruct (D1 !! n) as [[d1|]|], (D2 !! n) as [[d2|]|]; try done.
    + destruct H1 as [Hp1 Hmin1], H2 as [Hp2 Hmin2].
      apply Hmin1 in Hp2. apply Hmin2 in Hp1. do 2 f_equal. lia.
    + destruct H1 as [Hp1 _]. by apply H2 in Hp1.
    + destruct H2 as [Hp2 _]. by apply H1 in Hp2.
  - pose proof Hn as Hn'. rewrite <- Hdom1 in Hn. rewrite <- Hdom2 in Hn'.
    apply not_elem_of_dom in Hn, Hn'. congruence.
Qed.

(** A check that decides whether the weights are non-negative. *)
Lemma nonneg_weights_check graph :
  map_Forall (λ _ nbrs, map_Forall (λ (_ : K) w, 0 ≤ w)%Z nbrs) graph →
  nonneg_weights graph.
Proof.
  intros Hall u v w (nbrs & Hu & Hv).
  exact (Hall u nbrs Hu v w Hv).
Qed.

(** With a start that is not a key, the first node selected has an
    infinite distance and the loop is left at once. *)
Lemma dijkstra_loop_absent_start set_iter dict_items graph (start : K) fuel :
  iteration_orders set_iter dict_items → start ∉ dom graph →
  dijkstra_loop set_iter dict_items (S fuel) graph
    (<[start := Fin 0]> ((λ _, Inf) <$> graph)) (dom graph)
  = Ok (<[start := Fin 0]> ((λ _, Inf) <$> graph)).
Proof.
  intros Horders Hstart. rewrite dijkstra_loop_S.
  case_bool_decide as Hne; [|done].
  set (D0 := <[start := Fin 0]> ((λ _, Inf) <$> graph) : gmap K dist).
  assert (∀ x, x ∈ dom graph → D0 !! x = Some Inf) as HD0.
  { intros x Hx. unfold D0. rewrite lookup_insert_ne by (by intros ->).
    apply elem_of_dom in Hx as [nbrs Hx]. by rewrite lookup_fmap, Hx. }
  destruct (min_by_spec D0 (set_iter (dom graph))) as (c & kc & -> & Hc & Hkc & _).
  { by apply (set_iter_nonempty _ dict_items Horders). }
  { intros x Hx%(set_iter_elem _ dict_items Horders). rewrite HD0; eauto. }
  apply (set_iter_elem _ dict_items Horders) in Hc.
  rewrite bind_Ok, (getitem_Some _ _ _ (HD0 c Hc)), bind_Ok. by rewrite bool_decide_true.
Qed.

End dijkstra_more.

Lemma example_graph_nonneg : nonneg_weights example_graph.
Proof. apply nonneg_weights_check. apply (bool_decide_unpack _). by vm_compute. Qed.

Lemma elements_map_to_list_orders `{Countable K} :
  iteration_orders (elements : gset K → list K)
    (map_to_list : gmap K Z → list (K * Z)).
Proof. split; intros; reflexivity. Qed.

Lemma example_graph_result :
  dijkstra_shortest_path elements map_to_list example_graph "A"
  = Ok {[ "A" := Fin 0; "B" := Fin 1; "C" := Fin 3; "D" := Fin 4 ]}.
Proof. vm_compute. reflexivity. Qed.

Lemma example_graph_start : "A" ∈ dom example_graph.
Proof. apply elem_of_dom. eexists. vm_compute. reflexivity. Qed.

Lemma example_graph_absent : "E" ∉ dom example_graph.
Proof. apply not_elem_of_dom. vm_compute. reflexivity. Qed.

(** C1: on a graph with non-negative weights and a start that is one of
    its keys, [dijkstra_shortest_path] returns a mapping on the nodes of
    the graph in which the start is at 0, every node that can be reached
    is at the least total weight of a path from the start, and every
    other node is at infinity, whatever the order in which sets and
    dictionaries are iterated; on the graph of the example with start A it
    returns A:0, B:1, C:3, D:4. *)
Theorem dijkstra_shortest_path_correct :
  (∀ (K : Type) `(Countable K) set_iter dict_items
     (graph : gmap K (gmap K Z)) (start : K),
     iteration_orders set_iter dict_items →
     nonneg_weights graph → start ∈ dom graph →
     ∃ D, dijkstra_shortest_path set_iter dict_items graph start = Ok D
          ∧ dom D = dom graph
          ∧ D !! start = Some (Fin 0)
          ∧ ∀ n, n ∈ dom graph → right_distance graph start D n)
  ∧ (∀ set_iter dict_items,
       iteration_orders set_iter dict_items →
       dijkstra_shortest_path set_iter dict_items example_graph "A"
       = Ok {[ "A" := Fin 0; "B" := Fin 1; "C" := Fin 3; "D" := Fin 4 ]}).
Proof.
  split.
  - intros K ?? set_iter dict_items graph start Horders Hnonneg Hstart.
    by apply dijkstra_shortest_path_spec.
  - intros set_iter dict_items Horders.
    destruct (dijkstra_shortest_path_spec set_iter dict_items Horders
                example_graph "A" example_graph_nonneg example_graph_start)
      as (D & -> & HD).
    destruct (dijkstra_shortest_path_spec elements map_to_list
                elements_map_to_list_orders
                example_graph "A" example_graph_nonneg example_graph_start)
      as (D' & HD'eq & HD').
    rewrite example_graph_result in HD'eq. injection HD'eq as <-.
    f_equal. by eapply correct_distances_unique.
Qed.

(** C6, as the code has it: with a start that is not a key of the graph
    the call does not fail; the assignment adds the start as a new key and
    the call returns a mapping on the keys of the graph and the start, with
    the start at 0. *)
Theorem dijkstra_absent_start_returns `{Countable K} set_iter dict_items
    (graph : gmap K (gmap K Z)) (start : K) :
  iteration_orders set_iter dict_items → start ∉ dom graph →
  ∃ D, dijkstra_shortest_path set_iter dict_items graph start = Ok D
       ∧ dom D = {[start]} ∪ dom graph
       ∧ D !! start = Some (Fin 0).
Proof.
  intros Horders Hstart. eexists. split.
  { by apply dijkstra_loop_absent_start. }
  split; [|by rewrite lookup_insert_eq].
  by rewrite dom_insert_L, dom_fmap_L.
Qed.

(** C9: with a start that is not a key of the graph the call returns
    without an error a mapping with the start at 0 and every node of the
    graph at infinity, and the loop is left in its first turn. *)
Theorem dijkstra_absent_start_result `{Countable K} set_iter dict_items
    (graph : gmap K (gmap K Z)) (start : K) :
  iteration_orders set_iter dict_items → start ∉ dom graph →
  ∃ D, dijkstra_shortest_path set_iter dict_items graph start = Ok D
       ∧ D !! start = Some (Fin 0)
       ∧ (∀ n, n ∈ dom graph → D !! n = Some Inf)
       ∧ dijkstra_loop set_iter dict_items 1 graph
           (<[start := Fin 0]> ((λ _, Inf) <$> graph)) (dom graph) = Ok D.
Proof.
  intros Horders Hstart. eexists. split_and!.
  - by apply dijkstra_loop_absent_start.
  - by rewrite lookup_insert_eq.
  - intros n Hn. rewrite lookup_insert_ne by (by intros ->).
    apply elem_of_dom in Hn as [nbrs Hn]. by rewrite lookup_fmap, Hn.
  - by apply dijkstra_loop_absent_start.
Qed.

(** A call with a start that is not a key need not fail: on the graph of
    the example with the start E the call returns, with every node of the
    graph at infinity and E at 0. *)
Lemma dijkstra_absent_start_counterexample :
  ("E" ∉ dom example_graph)
  ∧ dijkstra_shortest_path elements map_to_list example_graph "E"
    = Ok {[ "A" := Inf; "B" := Inf; "C" := Inf; "D" := Inf; "E" := Fin 0 ]}
  ∧ ¬ ∃ e, dijkstra_shortest_path elements map_to_list example_graph "E"
           = Raise e.
Proof.
  assert (dijkstra_shortest_path elements map_to_list example_graph "E"
    = Ok {[ "A" := Inf; "B" := Inf; "C" := Inf; "D" := Inf; "E" := Fin 0 ]})
    as Heq by (vm_compute; reflexivity).
  split_and!; [apply example_graph_absent|done|].
  intros [e He]. rewrite Heq in He. discriminate.
Qed.

(** * The theorems at concrete inputs *)

Lemma Z_leb_total : Total (Sort.le_rel Z.leb).
Proof. intros x y. unfold Sort.le_rel. rewrite !Z.leb_le. lia. Qed.

Lemma Z_leb_trans : Transitive (Sort.le_rel Z.leb).
Proof. intros x y z. unfold Sort.le_rel. rewrite !Z.leb_le. lia. Qed.

Lemma le_key_total : Total (Sort.le_rel Sort.le_key).
Proof. intros x y. unfold Sort.le_rel, Sort.le_key. rewrite !Z.leb_le. lia. Qed.

Lemma le_key_trans : Transitive (Sort.le_rel Sort.le_key).
Proof. intros x y z. unfold Sort.le_rel, Sort.le_key. rewrite !Z.leb_le. lia. Qed.

Lemma sorted_13579 : StronglySorted Z.le [1; 3; 5; 7; 9]%Z.
Proof. repeat (constructor; try lia). Qed.

Example merge_sort_on_integers :
  Sort.merge_sort Z.leb [5; 3; 9; 1; 7; 3]%Z = Ok [1; 3; 3; 5; 7; 9]%Z.
Proof. reflexivity. Qed.

(** A node without a path from the start stays at infinity, and an edge
    to a node that is not a key is passed over. *)
Example dijkstra_unreachable_node :
  dijkstra_shortest_path elements map_to_list
    ({[ "A" := {[ "B" := 1%Z; "X" := 1%Z ]}; "B" := ∅; "C" := {[ "A" := 1%Z ]} ]}
       : gmap string (gmap string Z)) "A"
  = Ok {[ "A" := Fin 0; "B" := Fin 1; "C" := Inf ]}.
Proof. vm_compute. reflexivity. Qed.

Example merge_sort_keeps_equal_keys_in_order :
  Sort.merge_sort Sort.le_key
    [(2, "a"); (1, "b"); (2, "c"); (1, "d"); (2, "e")]%Z
  = Ok [(1, "b"); (1, "d"); (2, "a"); (2, "c"); (2, "e")]%Z.
Proof. reflexivity. Qed.

Lemma dijkstra_shortest_path_correct_witness :
  ∃ D, dijkstra_shortest_path elements map_to_list example_graph "A" = Ok D
       ∧ dom D = dom example_graph
       ∧ D !! "A" = Some (Fin 0)
       ∧ ∀ n, n ∈ dom example_graph → right_distance example_graph "A" D n.
Proof.
  destruct dijkstra_shortest_path_correct as [Hgen _].
  apply Hgen.
  - apply elements_map_to_list_orders.
  - apply example_graph_nonneg.
  - apply example_graph_start.
Defined.

Lemma binary_search_correct_witness :
  ∃ j, BinSearch.binary_search Z.eqb Z.ltb [1; 3; 5; 7; 9]%Z 7%Z = Ok j
       ∧ (0 ≤ j < Z.of_nat (length [1; 3; 5; 7; 9]%Z))%Z
       ∧ index_Z [1; 3; 5; 7; 9]%Z j = Ok 7%Z.
Proof.
  destruct binary_search_correct as [Hgen _].
  apply (Hgen Z Z.eqb Z.ltb [1; 3; 5; 7; 9]%Z 7%Z).
  - apply Z_total_order.
  - apply ascending_Z, sorted_13579.
  - apply (list_elem_of_lookup_2 _ 3). reflexivity.
Defined.

Lemma merge_sort_permutation_sorted_witness :
  ∃ out, Sort.merge_sort Z.leb [3; 1; 2; 1]%Z = Ok out
         ∧ out ≡ₚ [3; 1; 2; 1]%Z
         ∧ StronglySorted (Sort.le_rel Z.leb) out.
Proof.
  apply merge_sort_permutation_sorted.
  - apply Z_leb_total.
  - apply Z_leb_trans.
Defined.

Lemma fibonacci_dynamic_refines_reference_witness :
  Fib.fibonacci_dynamic 7 = Ok (Fib.fib_ref (Z.to_nat 7)).
Proof.
  destruct fibonacci_dynamic_refines_reference as [Hgen _].
  apply Hgen. lia.
Defined.

Lemma binary_search_early_exits_redundant_witness :
  ∃ r, BinSearch.binary_search Z.eqb Z.ltb [1; 3; 5; 7; 9]%Z 10%Z = Ok r
       ∧ BinSearch.simple_search Z.eqb Z.ltb [1; 3; 5; 7; 9]%Z 10%Z = Ok r.
Proof.
  apply binary_search_early_exits_redundant.
  apply ascending_Z, sorted_13579.
Defined.

Lemma dijkstra_absent_start_returns_witness :
  ∃ D, dijkstra_shortest_path elements map_to_list example_graph "E" = Ok D
       ∧ dom D = {["E"]} ∪ dom example_graph
       ∧ D !! "E" = Some (Fin 0).
Proof.
  apply dijkstra_absent_start_returns.
  - apply elements_map_to_list_orders.
  - apply example_graph_absent.
Defined.

Lemma merge_sort_stable_witness :
  ∃ out, Sort.merge_sort Sort.le_key
           [(2, "a"); (1, "b"); (2, "c"); (1, "d"); (2, "e")]%Z = Ok out
    ∧ ∀ k, filter (λ y, Sort.same_key Sort.le_key k y) out
           = filter (λ y, Sort.same_key Sort.le_key k y)
               [(2, "a"); (1, "b"); (2, "c"); (1, "d"); (2, "e")]%Z.
Proof.
  apply merge_sort_stable.
  - apply le_key_total.
  - apply le_key_trans.
Defined.

Lemma merge_sort_idempotent_witness :
  Sort.merge_sort Z.leb [1; 2; 2; 5]%Z = Ok [1; 2; 2; 5]%Z
  ∧ Sort.merge_sort Z.leb ([] : list Z) = Ok []
  ∧ ∃ out, Sort.merge_sort Z.leb [3; 1; 2; 1]%Z = Ok out
           ∧ Sort.merge_sort Z.leb out = Ok out.
Proof.
  destruct (merge_sort_idempotent Z.leb Z_leb_total Z_leb_trans)
    as (Hsorted & Hnil & Htwice).
  split_and!; [|done|done].
  apply Hsorted. repeat (constructor; try reflexivity).
Defined.

Lemma dijkstra_absent_start_result_witness :
  ∃ D, dijkstra_shortest_path elements map_to_list example_graph "E" = Ok D
       ∧ D !! "E" = Some (Fin 0)
       ∧ (∀ n, n ∈ dom example_graph → D !! n = Some Inf)
       ∧ dijkstra_loop elements map_to_list 1 example_graph
           (<["E" := Fin 0]> ((λ _, Inf) <$> example_graph))
           (dom example_graph) = Ok D.
Proof.
  apply dijkstra_absent_start_result.
  - apply elements_map_to_list_orders.
  - apply example_graph_absent.
Defined.

Lemma fibonacci_dynamic_base_witness :
  Fib.fibonacci_dynamic (-5) = Ok (-5)%Z.
Proof. apply fibonacci_dynamic_base. lia. Defined.

(** * Further properties of the code *)

(** ** [merge] and [merge_sort] *)

Section sort_more.
Context {A : Type} (le : A → A → bool).
Local Abbreviation R := (Sort.le_rel le).

(** X1: whatever the two lists and the comparison, [merge] returns, and
    what it returns has exactly the elements of the two lists. *)
Theorem merge_keeps_elements (l r : list A) :
  ∃ out, Sort.merge le l r = Ok out
         ∧ out ≡ₚ l ++ r
         ∧ length out = length l + length r.
Proof.
  exists (list_merge R l r). rewrite merge_spec.
  pose proof (merge_Permutation R l r) as Hperm.
  split_and!; [done..|]. by rewrite Hperm, length_app.
Qed.

(** X2: [merge] of two runs in non-decreasing order is in non-decreasing
    order. *)
Theorem merge_sorted_runs (l r : list A) :
  Total R → Transitive R →
  StronglySorted R l → StronglySorted R r →
  ∃ out, Sort.merge le l r = Ok out ∧ StronglySorted R out.
Proof.
  intros ?? Hl Hr. exists (list_merge R l r). rewrite merge_spec.
  split; [done|]. apply Sorted_StronglySorted; [done|].
  apply Sorted_list_merge; [done|by apply StronglySorted_Sorted..].
Qed.

(** X3: [merge] puts the elements of the left run before the elements of
    the right run that compare equal to them, and keeps the order inside
    each run. *)
Theorem merge_left_first (l r : list A) :
  Total R → Transitive R → StronglySorted R l →
  ∃ out, Sort.merge le l r = Ok out ∧
    ∀ k, filter (λ y, Sort.same_key le k y) out
         = filter (λ y, Sort.same_key le k y) l
           ++ filter (λ y, Sort.same_key le k y) r.
Proof.
  intros ?? Hl. exists (list_merge R l r). rewrite merge_spec.
  split; [done|]. intros k. by apply list_merge_filter.
Qed.

(** X4: when no element of the left list is above an element of the right
    list, [merge] returns the left list followed by the right one; so
    merging with an empty list returns the other list. *)
Theorem merge_ordered_runs (l r : list A) :
  (∀ x y, x ∈ l → y ∈ r → le x y = true) →
  Sort.merge le l r = Ok (l ++ r).
Proof. intros Hlr. rewrite merge_spec. f_equal. by apply list_merge_app. Qed.

(** X5: whatever the comparison, even one that is not an order,
    [merge_sort] returns, and it returns a permutation of its input. *)
Theorem merge_sort_keeps_elements (arr : list A) :
  ∃ out, Sort.merge_sort le arr = Ok out
         ∧ out ≡ₚ arr ∧ length out = length arr.
Proof.
  destruct (merge_sort_ind le (λ arr out, out ≡ₚ arr)) with arr
    as (out & Hout & Hperm).
  - done.
  - intros a l1 l2 _ Hp1 Hp2.
    rewrite merge_Permutation, Hp1, Hp2. by rewrite take_drop.
  - exists out. split_and!; [done..|]. by rewrite Hperm.
Qed.

(** X6: under a total order the result of [merge_sort] depends on the
    elements only: two inputs that are permutations of each other give the
    same output. *)
Theorem merge_sort_canonical (arr1 arr2 : list A) :
  Total R → Transitive R → AntiSymm (=) R →
  arr1 ≡ₚ arr2 →
  ∃ out, Sort.merge_sort le arr1 = Ok out ∧ Sort.merge_sort le arr2 = Ok out.
Proof.
  intros ??? Hperm.
  destruct (merge_sort_sorts le arr1) as (out1 & Hout1 & Hp1 & Hs1).
  destruct (merge_sort_sorts le arr2) as (out2 & Hout2 & Hp2 & Hs2).
  exists out1. split; [done|]. rewrite Hout2. f_equal.
  apply (StronglySorted_unique R); [done..|].
  by rewrite Hp1, Hp2.
Qed.

End sort_more.

Lemma Z_leb_antisym : AntiSymm (=) (Sort.le_rel Z.leb).
Proof. intros x y. unfold Sort.le_rel. rewrite !Z.leb_le. lia. Qed.

Lemma merge_sorted_runs_witness :
  ∃ out, Sort.merge Z.leb [1; 4; 6]%Z [2; 4; 9]%Z = Ok out
         ∧ StronglySorted (Sort.le_rel Z.leb) out.
Proof.
  apply merge_sorted_runs.
  - apply Z_leb_total.
  - apply Z_leb_trans.
  - repeat (constructor; try reflexivity).
  - repeat (constructor; try reflexivity).
Defined.

Lemma merge_left_first_witness :
  ∃ out, Sort.merge Sort.le_key [(1, "a"); (2, "b")]%Z [(1, "c"); (2, "d")]%Z
         = Ok out ∧
    ∀ k, filter (λ y, Sort.same_key Sort.le_key k y) out
         = filter (λ y, Sort.same_key Sort.le_key k y) [(1, "a"); (2, "b")]%Z
           ++ filter (λ y, Sort.same_key Sort.le_key k y)
                [(1, "c"); (2, "d")]%Z.
Proof.
  apply merge_left_first.
  - apply le_key_total.
  - apply le_key_trans.
  - repeat (constructor; try reflexivity).
Defined.

Lemma merge_ordered_runs_witness :
  Sort.merge Z.leb [1; 2]%Z [2; 3]%Z = Ok [1; 2; 2; 3]%Z
  ∧ Sort.merge Z.leb [] [3; 1]%Z = Ok [3; 1]%Z
  ∧ Sort.merge Z.leb [3; 1]%Z [] = Ok [3; 1]%Z.
Proof.
  split_and!.
  - apply (merge_ordered_runs Z.leb [1; 2]%Z [2; 3]%Z).
    intros x y Hx Hy. apply Z.leb_le.
    repeat (apply elem_of_cons in Hx as [->|Hx]);
      repeat (apply elem_of_cons in Hy as [->|Hy]);
      try lia; try (by apply elem_of_nil in Hx); by apply elem_of_nil in Hy.
  - apply (merge_ordered_runs Z.leb [] [3; 1]%Z).
    intros x y Hx. by apply elem_of_nil in Hx.
  - apply (merge_ordered_runs Z.leb [3; 1]%Z []).
    intros x y _ Hy. by apply elem_of_nil in Hy.
Defined.

Lemma merge_sort_canonical_witness :
  ∃ out, Sort.merge_sort Z.leb [3; 1; 2]%Z = Ok out
         ∧ Sort.merge_sort Z.leb [1; 2; 3]%Z = Ok out.
Proof.
  apply merge_sort_canonical.
  - apply Z_leb_total.
  - apply Z_leb_trans.
  - apply Z_leb_antisym.
  - exact (Permutation_cons_append [1; 2]%Z 3%Z).
Defined.

(** ** [binary_search] *)

Section search_more.
Context {A : Type} (eqb ltb : A → A → bool).
Implicit Types (arr : list A) (target : A) (left right : Z).

(** On any list the loop returns [-1] or an index of its window at which
    the element equals the target. *)
Lemma binary_search_loop_sound arr target fuel left right :
  (0 ≤ left)%Z → (right < Z.of_nat (length arr))%Z →
  Z.to_nat (right - left + 1) < fuel →
  ∃ r, BinSearch.binary_search_loop eqb ltb fuel arr target left right = Ok r
       ∧ (r = (-1)%Z
          ∨ ((left ≤ r ≤ right)%Z
             ∧ ∃ x, arr !! Z.to_nat r = Some x ∧ eqb x target = true)).
Proof.
  revert left right. induction fuel as [|fuel IH]; intros left right Hl Hr Hf; [lia|].
  rewrite binary_search_loop_S. case_bool_decide as Hlr; [|eauto].
  pose proof (midpoint_bounds left right Hlr) as Hmid.
  set (mid := ((left + right) `div` 2)%Z) in *.
  destruct (index_Z_in_range arr mid) as (v & Hv & ->); [lia|].
  rewrite bind_Ok. destruct (eqb v target) eqn:Heq.
  { exists mid. split; [done|]. right. eauto. }
  destruct (ltb v target); case_bool_decide; eauto.
  - destruct (IH (mid + 1)%Z right) as (r & -> & Hres); [lia..|].
    exists r. split; [done|]. destruct Hres as [?|[? ?]]; [by left|right].
    split; [lia|done].
  - destruct (IH left (mid - 1)%Z) as (r & -> & Hres); [lia..|].
    exists r. split; [done|]. destruct Hres as [?|[? ?]]; [by left|right].
    split; [lia|done].
Qed.

(** X7: on any list, sorted or not, [binary_search] raises nothing and
    returns either [-1] or a valid index at which the element equals the
    target. *)
Theorem binary_search_sound arr target :
  ∃ r, BinSearch.binary_search eqb ltb arr target = Ok r
       ∧ (r = (-1)%Z
          ∨ ((0 ≤ r < Z.of_nat (length arr))%Z
             ∧ ∃ x, index_Z arr r = Ok x ∧ eqb x target = true)).
Proof.
  destruct (binary_search_loop_sound arr target (S (length arr)) 0
              (Z.of_nat (length arr) - 1)) as (r & Hr & Hres); [lia..|].
  exists r. split; [done|]. destruct Hres as [?|[Hrange (x & Hx & Heq)]]; [by left|].
  right. split; [lia|]. exists x. split; [|done].
  destruct (index_Z_in_range arr r) as (x' & Hx' & ->); [lia|]. congruence.
Qed.

(** A window of fewer than [2 ^ f] indices is searched in at most [f]
    turns of the loop. *)
Lemma binary_search_loop_halves arr target (f : nat) :
  ∀ big left right,
    (0 ≤ left)%Z → (right < Z.of_nat (length arr))%Z →
    Z.to_nat (right - left + 1) < 2 ^ f →
    Z.to_nat (right - left + 1) < big →
    ∃ r, BinSearch.binary_search_loop eqb ltb (S f) arr target left right = Ok r
         ∧ BinSearch.binary_search_loop eqb ltb big arr target left right = Ok r.
Proof.
  induction f as [|f IH]; intros [|big] left right Hl Hr Hw Hbig; try lia.
  - rewrite !binary_search_loop_S. simpl in Hw.
    rewrite !bool_decide_false by lia. eauto.
  - rewrite (binary_search_loop_S _ _ (S f)), (binary_search_loop_S _ _ big).
    case_bool_decide as Hlr; [|eauto].
    pose proof (midpoint_bounds left right Hlr) as Hmid.
    assert (2 ^ S f = 2 * 2 ^ f) as Hpow by (simpl; lia).
    assert ((left + right) `div` 2 - left ≤ (right - left) `div` 2)%Z as Hlo.
    { Z.div_mod_to_equations. lia. }
    assert (right - (left + right) `div` 2 ≤ (right - left + 1) `div` 2)%Z as Hhi.
    { Z.div_mod_to_equations. lia. }
    assert (Z.to_nat ((right - left + 1) `div` 2) < 2 ^ f) as Hhalf.
    { assert ((right - left + 1) `div` 2 < Z.of_nat (2 ^ f))%Z; [|lia].
      apply Z.div_lt_upper_bound; lia. }
    assert ((right - left) `div` 2 ≤ (right - left + 1) `div` 2)%Z as Hmono.
    { apply Z.div_le_mono; lia. }
    set (mid := ((left + right) `div` 2)%Z) in *.
    destruct (index_Z_in_range arr mid) as (v & Hv & ->); [lia|].
    rewrite !bind_Ok. destruct (eqb v target); [eauto|].
    destruct (ltb v target); case_bool_decide; eauto; apply IH; lia.
Qed.

(** X8: [binary_search] gives its answer within [⌊log2 n⌋ + 2] tests of
    the loop condition, [n] being the length of the list. *)
Theorem binary_search_logarithmic arr target :
  ∃ r, BinSearch.binary_search_loop eqb ltb (2 + Nat.log2 (length arr)) arr
         target 0 (Z.of_nat (length arr) - 1) = Ok r
       ∧ BinSearch.binary_search eqb ltb arr target = Ok r.
Proof.
  apply (binary_search_loop_halves arr target (S (Nat.log2 (length arr))));
    [lia..| |lia].
  destruct (decide (length arr = 0)) as [->|Hn]; [simpl; lia|].
  pose proof (Nat.log2_spec (length arr)). lia.
Qed.

Lemma strictly_ascending_ascending arr :
  BinSearch.total_order eqb ltb →
  BinSearch.strictly_ascending ltb arr → BinSearch.ascending ltb arr.
Proof.
  intros Hord Hstrict i j x y Hi Hj Hij.
  destruct (decide (i = j)) as [->|Hne].
  { simplify_eq. apply (BinSearch.ltb_irrefl _ _ Hord). }
  assert (ltb x y = true) as Hxy by (eapply Hstrict; [done..|lia]).
  destruct (ltb y x) eqn:Hyx; [|done].
  pose proof (BinSearch.ltb_trans _ _ Hord _ _ _ Hxy Hyx) as Hxx.
  by rewrite (BinSearch.ltb_irrefl _ _ Hord) in Hxx.
Qed.

(** X9: on a strictly ascending list [binary_search] returns the position
    of the target, the only one there is. *)
Theorem binary_search_position arr target (i : nat) :
  BinSearch.total_order eqb ltb → BinSearch.strictly_ascending ltb arr →
  arr !! i = Some target →
  BinSearch.binary_search eqb ltb arr target = Ok (Z.of_nat i).
Proof.
  intros Hord Hstrict Hi.
  destruct (binary_search_spec eqb ltb arr target Hord) as [Hfound _].
  { by apply strictly_ascending_ascending. }
  destruct Hfound as (j & -> & Hrange & Hj); [by eapply list_elem_of_lookup_2|].
  destruct (index_Z_in_range arr j Hrange) as (x & Hx & Hjx).
  assert (x = target) as -> by congruence.
  f_equal. destruct (decide (i = Z.to_nat j)) as [->|Hne]; [lia|].
  assert (ltb target target = true) as Htt.
  { destruct (decide (i < Z.to_nat j)).
    - by eapply (Hstrict i (Z.to_nat j)).
    - eapply (Hstrict (Z.to_nat j) i); [done..|lia]. }
  by rewrite (BinSearch.ltb_irrefl _ _ Hord) in Htt.
Qed.

End search_more.

Lemma StronglySorted_lookup_lt {A} (R : relation A) (l : list A) :
  StronglySorted R l →
  ∀ i j x y, l !! i = Some x → l !! j = Some y → i < j → R x y.
Proof.
  induction 1 as [|a l Hs IH Ha]; intros i j x y Hi Hj Hij.
  { by rewrite lookup_nil in Hi. }
  destruct j as [|j]; [lia|]. destruct i as [|i]; simplify_eq/=.
  - rewrite Forall_forall in Ha. apply Ha. by eapply list_elem_of_lookup_2.
  - eapply IH; [done..|lia].
Qed.

Section sort_then_search.
Context {A : Type} (le eqb ltb : A → A → bool).


End sort_then_search.

Lemma strictly_ascending_Z (arr : list Z) :
  StronglySorted Z.lt arr → BinSearch.strictly_ascending Z.ltb arr.
Proof.
  intros Hs i j x y Hi Hj Hij. apply Z.ltb_lt.
  by eapply (StronglySorted_lookup_lt _ _ Hs).
Qed.

Lemma binary_search_position_witness :
  BinSearch.binary_search Z.eqb Z.ltb [1; 3; 5; 7; 9]%Z 5%Z = Ok (Z.of_nat 2).
Proof.
  apply binary_search_position.
  - apply Z_total_order.
  - apply strictly_ascending_Z. repeat (constructor; try lia).
  - reflexivity.
Defined.


(** ** [dijkstra_shortest_path] *)

Section dijkstra_any_weights.
Context `{Countable K}.
Variable set_iter : gset K → list K.
Variable dict_items : gmap K Z → list (K * Z).
Hypothesis orders : iteration_orders set_iter dict_items.
Variable graph : gmap K (gmap K Z).
Variable start : K.
Implicit Types (D : gmap K dist) (U : gset K).

(** Whatever the weights, relaxing the edges of a node raises nothing,
    keeps the keys, and leaves every finite distance the weight of a
    path. *)
Lemma relax_loop_any U c (items : list (K * Z)) :
  ∀ D, (∀ v e, (v, e) ∈ items → edge graph c v e) →
    is_Some (D !! c) → (∀ x, x ∈ U → is_Some (D !! x)) →
    (∀ v d, D !! v = Some (Fin d) → path graph start v d) →
    ∃ D', relax_loop U c items D = Ok D'
          ∧ (∀ v, is_Some (D' !! v) ↔ is_Some (D !! v))
          ∧ (∀ v d, D' !! v = Some (Fin d) → path graph start v d).
Proof.
  induction items as [|[v e] items IH]; intros D Hedges [dc Hc] HU Hpaths.
  { exists D. split_and!; done. }
  assert (∀ v e, (v, e) ∈ items → edge graph c v e) as Hedges'.
  { intros ???. apply Hedges. by right. }
  simpl. case_bool_decide as Hv; [|by apply IH; eauto].
  destruct (HU v Hv) as [dn Hdn].
  rewrite (getitem_Some _ _ _ Hc), bind_Ok, (getitem_Some _ _ _ Hdn), bind_Ok.
  destruct (dist_lt (dist_add dc e) dn); [|by apply IH; eauto].
  destruct (IH (<[v := dist_add dc e]> D)) as (D' & -> & Hdom & Hpaths').
  - done.
  - rewrite lookup_insert. case_decide; eauto.
  - intros x Hx. rewrite lookup_insert. case_decide; eauto.
  - intros x d. rewrite lookup_insert. case_decide; [|by apply Hpaths].
    subst x. destruct dc as [dc|]; [|done]. intros [= <-].
    eapply path_snoc; [by apply Hpaths|]. apply Hedges. by left.
  - exists D'. split_and!; [done| |done].
    intros x. rewrite Hdom, lookup_insert. case_decide; [|done].
    subst x. rewrite Hdn. split; eauto.
Qed.

Lemma dijkstra_loop_any (fuel : nat) :
  ∀ D U, (∀ x, x ∈ U → x ∈ dom graph) →
    (∀ v, is_Some (D !! v) ↔ v ∈ dom graph ∨ v = start) →
    (∀ v d, D !! v = Some (Fin d) → path graph start v d) →
    size U < fuel →
    ∃ D', dijkstra_loop set_iter dict_items fuel graph D U = Ok D'
          ∧ (∀ v, is_Some (D' !! v) ↔ v ∈ dom graph ∨ v = start)
          ∧ (∀ v d, D' !! v = Some (Fin d) → path graph start v d).
Proof.
  induction fuel as [|fuel IH]; intros D U HU Hdom Hpaths Hf; [lia|].
  rewrite dijkstra_loop_S. case_bool_decide as Hne; [|by exists D].
  destruct (min_by_spec D (set_iter U)) as (c & kc & -> & Hc & Hkc & _).
  { by apply (set_iter_nonempty _ dict_items orders). }
  { intros x Hx%(set_iter_elem _ dict_items orders). apply Hdom. left. by apply HU. }
  apply (set_iter_elem _ dict_items orders) in Hc.
  rewrite bind_Ok, (getitem_Some _ _ _ Hkc), bind_Ok.
  case_bool_decide; [by exists D|].
  assert (is_Some (graph !! c)) as [nbrs Hnbrs] by (by apply elem_of_dom, HU).
  rewrite (getitem_Some _ _ _ Hnbrs), bind_Ok.
  destruct (relax_loop_any U c (dict_items nbrs) D) as (D' & -> & Hdom' & Hpaths').
  { intros v e Hv%(dict_items_elem set_iter _ orders). by exists nbrs. }
  { eauto. }
  { intros x Hx. apply Hdom. left. by apply HU. }
  { done. }
  rewrite bind_Ok, bool_decide_true by done. apply IH.
  - intros x [Hx _]%elem_of_remove. by apply HU.
  - intros v. by rewrite Hdom'.
  - done.
  - assert (size (U ∖ {[c]}) < size U); [|lia].
    by apply subset_size, subset_difference_elem_of.
Qed.

(** X11: whatever the integer weights (negative ones included), whether
    or not the start is a key, and whether or not the neighbours are keys,
    [dijkstra_shortest_path] raises nothing; its result has the keys of
    the graph and the start as keys, and every finite distance in it is
    the total weight of a path from the start. *)
Theorem dijkstra_any_weights :
  ∃ D, dijkstra_shortest_path set_iter dict_items graph start = Ok D
       ∧ dom D = {[start]} ∪ dom graph
       ∧ ∀ v d, D !! v = Some (Fin d) → path graph start v d.
Proof.
  destruct (dijkstra_loop_any (S (size graph))
              (<[start := Fin 0]> ((λ _, Inf) <$> graph)) (dom graph))
    as (D & HD & Hdom & Hpaths).
  - done.
  - intros v. rewrite lookup_insert. case_decide.
    + subst v. split; eauto.
    + rewrite lookup_fmap, fmap_is_Some, elem_of_dom.
      split; [by left|]. by intros [?|?].
  - intros v d. rewrite lookup_insert. case_decide.
    + intros [= <-]. subst v. constructor.
    + rewrite lookup_fmap. by destruct (graph !! v).
  - rewrite size_dom. lia.
  - exists D. split_and!; [done| |done].
    apply set_eq. intros v. rewrite elem_of_dom, Hdom, elem_of_union, elem_of_singleton.
    tauto.
Qed.

End dijkstra_any_weights.

Section dijkstra_results.
Context `{Countable K}.
Variable graph : gmap K (gmap K Z).
Variable start : K.

(** X12: on a graph with non-negative weights and a start that is a key,
    the result does not depend on the order in which the set of unvisited
    nodes and the neighbours are iterated: ties between equal minima and
    the order of relaxation make no difference. *)
Theorem dijkstra_order_irrelevant set_iter1 dict_items1 set_iter2 dict_items2 :
  iteration_orders set_iter1 dict_items1 →
  iteration_orders set_iter2 dict_items2 →
  nonneg_weights graph → start ∈ dom graph →
  ∃ D, dijkstra_shortest_path set_iter1 dict_items1 graph start = Ok D
       ∧ dijkstra_shortest_path set_iter2 dict_items2 graph start = Ok D.
Proof.
  intros Ho1 Ho2 Hnonneg Hstart.
  destruct (dijkstra_shortest_path_spec set_iter1 dict_items1 Ho1
              graph start Hnonneg Hstart) as (D1 & HD1 & Hc1).
  destruct (dijkstra_shortest_path_spec set_iter2 dict_items2 Ho2
              graph start Hnonneg Hstart) as (D2 & HD2 & Hc2).
  exists D1. split; [done|]. rewrite HD2. f_equal.
  by eapply correct_distances_unique.
Qed.

(** X13: on a graph with non-negative weights and a start that is a key,
    no distance in the result is negative and no edge between two nodes
    of the graph is left tense: the head of an edge is at most the weight
    of the edge farther than its tail. *)
Theorem dijkstra_no_tense_edge set_iter dict_items :
  iteration_orders set_iter dict_items →
  nonneg_weights graph → start ∈ dom graph →
  ∃ D, dijkstra_shortest_path set_iter dict_items graph start = Ok D
       ∧ (∀ v d, D !! v = Some (Fin d) → (0 ≤ d)%Z)
       ∧ (∀ u v w du, edge graph u v w → v ∈ dom graph →
            D !! u = Some (Fin du) →
            ∃ dv, D !! v = Some (Fin dv) ∧ (dv ≤ du + w)%Z).
Proof.
  intros Horders Hnonneg Hstart.
  destruct (dijkstra_shortest_path_spec set_iter dict_items Horders
              graph start Hnonneg Hstart) as (D & HD & Hdom & _ & Hright).
  assert (∀ v d, D !! v = Some (Fin d) → path graph start v d) as Hpaths.
  { intros v d Hv. assert (v ∈ dom graph) as Hin.
    { rewrite <- Hdom. apply elem_of_dom. eauto. }
    specialize (Hright v Hin). unfold right_distance in Hright.
    rewrite Hv in Hright. apply Hright. }
  exists D. split_and!; [done| |].
  - intros v d Hv. by eapply path_nonneg, Hpaths.
  - intros u v w du Hedge Hv Hu.
    pose proof (path_snoc _ _ _ _ _ _ (Hpaths _ _ Hu) Hedge) as Hpath.
    specialize (Hright v Hv). unfold right_distance in Hright.
    destruct (D !! v) as [[dv|]|]; [|by apply Hright in Hpath|done].
    exists dv. split; [done|]. by apply Hright.
Qed.

End dijkstra_results.

Lemma reversed_orders `{Countable K} :
  iteration_orders (λ s : gset K, reverse (elements s))
    (λ d : gmap K Z, reverse (map_to_list d)).
Proof. split; intros; apply reverse_Permutation. Qed.

Lemma dijkstra_any_weights_witness :
  ∃ D, dijkstra_shortest_path elements map_to_list
         ({[ "A" := {[ "B" := (-2)%Z; "X" := 1%Z ]}; "B" := {[ "A" := 1%Z ]} ]}
            : gmap string (gmap string Z)) "A" = Ok D
       ∧ dom D = {["A"]} ∪ dom ({[ "A" := {[ "B" := (-2)%Z; "X" := 1%Z ]};
                                   "B" := {[ "A" := 1%Z ]} ]}
                                  : gmap string (gmap string Z))
       ∧ ∀ v d, D !! v = Some (Fin d) →
           path ({[ "A" := {[ "B" := (-2)%Z; "X" := 1%Z ]};
                    "B" := {[ "A" := 1%Z ]} ]}
                   : gmap string (gmap string Z)) "A" v d.
Proof. apply dijkstra_any_weights. apply elements_map_to_list_orders. Defined.

Lemma dijkstra_order_irrelevant_witness :
  ∃ D, dijkstra_shortest_path elements map_to_list example_graph "A" = Ok D
       ∧ dijkstra_shortest_path (λ s, reverse (elements s))
           (λ d, reverse (map_to_list d)) example_graph "A" = Ok D.
Proof.
  apply dijkstra_order_irrelevant.
  - apply elements_map_to_list_orders.
  - apply reversed_orders.
  - apply example_graph_nonneg.
  - apply example_graph_start.
Defined.

Lemma dijkstra_no_tense_edge_witness :
  ∃ D, dijkstra_shortest_path elements map_to_list example_graph "A" = Ok D
       ∧ (∀ v d, D !! v = Some (Fin d) → (0 ≤ d)%Z)
       ∧ (∀ u v w du, edge example_graph u v w → v ∈ dom example_graph →
            D !! u = Some (Fin du) →
            ∃ dv, D !! v = Some (Fin dv) ∧ (dv ≤ du + w)%Z).
Proof.
  apply dijkstra_no_tense_edge.
  - apply elements_map_to_list_orders.
  - apply example_graph_nonneg.
  - apply example_graph_start.
Defined.

(** ** [fibonacci_dynamic] *)

Section fib_more.
Import Fib.
Local Open Scope Z_scope.

(** A call of [fib] extends a cache on the keys from 2 to [m] to the keys
    from 2 to the larger of [m] and [num]. *)
Lemma fib_memo (fuel : nat) :
  ∀ num m memo, memo_ok memo → memo_upto m memo → (Z.to_nat num ≤ fuel)%nat →
    ∃ memo', fib (S fuel) num memo = Ok (fib_value num, memo')
             ∧ memo_ok memo' ∧ memo_upto (m `max` num) memo'.
Proof.
  induction fuel as [|fuel IH]; intros num m memo Hok Hupto Hf; rewrite fib_S.
  - rewrite bool_decide_false by (intros Hin%Hupto; lia).
    rewrite bool_decide_true by lia. exists memo. split_and!; [|done|].
    + unfold fib_value. by rewrite bool_decide_true by lia.
    + intros k. rewrite (Hupto k). lia.
  - case_bool_decide as Hin.
    { pose proof Hin as Hrange%Hupto.
      apply elem_of_dom in Hin as [v Hv]. rewrite (getitem_Some _ _ _ Hv), bind_Ok.
      exists memo. split_and!; [|done|].
      - by destruct (Hok _ _ Hv) as [_ ->].
      - intros k. rewrite (Hupto k). lia. }
    case_bool_decide as Hle.
    { exists memo. split_and!; [|done|].
      - unfold fib_value. by rewrite bool_decide_true.
      - intros k. rewrite (Hupto k). lia. }
    assert (m < num) as Hm.
    { destruct (decide (m < num)); [done|]. destruct Hin. apply Hupto. lia. }
    destruct (IH (num - 1) m memo Hok Hupto) as (memo1 & -> & Hok1 & Hupto1); [lia|].
    rewrite bind_Ok.
    destruct (IH (num - 2) _ memo1 Hok1 Hupto1) as (memo2 & -> & Hok2 & Hupto2); [lia|].
    rewrite bind_Ok, <- fib_value_rec by lia.
    eexists; split_and!; [done| |].
    + intros k v. rewrite lookup_insert. case_decide as Hk; [|by apply Hok2].
      intros [= <-]. subst k. split; [lia|done].
    + intros k. rewrite dom_insert_L, elem_of_union, elem_of_singleton, (Hupto2 k).
      lia.
Qed.

(** X14: a call of [fibonacci_dynamic n] leaves in its cache exactly the
    Fibonacci numbers of the integers from 2 to [n]; the values at 0 and 1
    and at negative arguments are never stored. *)
Theorem fibonacci_dynamic_cache (n : Z) :
  ∃ v memo, fib (S (Z.to_nat n)) n ∅ = Ok (v, memo)
    ∧ fibonacci_dynamic n = Ok v
    ∧ ∀ k, memo !! k
           = if bool_decide (2 ≤ k ≤ n) then Some (fib_ref (Z.to_nat k)) else None.
Proof.
  destruct (fib_memo (Z.to_nat n) n 1 ∅) as (memo & Hfib & Hok & Hupto).
  { intros k v. by rewrite lookup_empty. }
  { intros k. rewrite dom_empty_L, elem_of_empty. lia. }
  { lia. }
  exists (fib_value n), memo. split_and!; [done|apply fibonacci_dynamic_value|].
  intros k. case_bool_decide as Hk.
  - assert (k ∈ dom memo) as [v Hv]%elem_of_dom by (apply Hupto; lia).
    rewrite Hv. f_equal. destruct (Hok _ _ Hv) as [_ ->].
    apply fib_value_nonneg. lia.
  - apply not_elem_of_dom. intros Hin%Hupto. lia.
Qed.

(** X15: after [fib(n)] has returned, [fib(n - 1)] is answered at once
    from the cache or by the base case, without a further recursive call
    and without a change to the cache: this is the second call of every
    [fib(n + 1)]. *)
Theorem fib_second_call_immediate (n : Z) :
  ∃ v memo, fib (S (Z.to_nat n)) n ∅ = Ok (v, memo)
    ∧ ∃ v', fib 1 (n - 1) memo = Ok (v', memo)
            ∧ fibonacci_dynamic (n - 1) = Ok v'.
Proof.
  destruct (fib_memo (Z.to_nat n) n 1 ∅) as (memo & Hfib & Hok & Hupto).
  { intros k v. by rewrite lookup_empty. }
  { intros k. rewrite dom_empty_L, elem_of_empty. lia. }
  { lia. }
  exists (fib_value n), memo. split; [done|].
  exists (fib_value (n - 1)). split; [|apply fibonacci_dynamic_value].
  rewrite fib_S. case_bool_decide as Hin.
  - apply elem_of_dom in Hin as [v Hv]. rewrite (getitem_Some _ _ _ Hv), bind_Ok.
    by destruct (Hok _ _ Hv) as [_ ->].
  - assert (n - 1 ≤ 1) as Hle.
    { destruct (decide (n - 1 ≤ 1)); [done|]. destruct Hin. apply Hupto. lia. }
    rewrite bool_decide_true by done. unfold fib_value.
    by rewrite bool_decide_true by done.
Qed.

End fib_more.
